(** * ExtractChinese: a shallow embedding of [extract_chinese.py]

    The extractor scans C# sources line by line, pulls quoted literals
    out with regular expressions, rewrites their [{...}] placeholders,
    removes duplicates and assigns a symbolic key to every value.

    Python [str] values are sequences of Unicode code points; they are
    modelled as lists of code points ([N]).  The regular expressions of
    the source are written in a small abstract syntax and run by a
    backtracking matcher with the priorities of Python's [re]. *)

From Stdlib Require Import String Ascii Decimal.
From Stdlib Require Import List NArith ZArith Arith Bool Lia Sorted.
From Stdlib Require DecimalNat DecimalFacts.
Import ListNotations.

Set Implicit Arguments.

(** ** Text *)

Definition char := N.
Definition str := list char.

Module Utf8.
(** Literals of the source are written as Rocq strings; their bytes are
    the UTF-8 encoding of the text and are decoded to code points. *)

Definition cont (b : N) : N := N.land b 63.

Fixpoint decode (bs : list N) : str :=
  match bs with
  | [] => []
  | b :: r =>
    if (b <? 128)%N then b :: decode r
    else if (b <? 224)%N then
      match r with
      | b1 :: r' => (N.land b 31 * 64 + cont b1)%N :: decode r'
      | _ => []
      end
    else if (b <? 240)%N then
      match r with
      | b1 :: b2 :: r' =>
          (N.land b 15 * 4096 + cont b1 * 64 + cont b2)%N :: decode r'
      | _ => []
      end
    else
      match r with
      | b1 :: b2 :: b3 :: r' =>
          (N.land b 7 * 262144 + cont b1 * 4096 + cont b2 * 64 + cont b3)%N
            :: decode r'
      | _ => []
      end
  end.

Definition of_string (s : string) : str :=
  decode (map N_of_ascii (list_ascii_of_string s)).

End Utf8.

(** [u "text"] is the Python literal ['text']. *)
Definition u (s : string) : str := Utf8.of_string s.

(** The double quote, the backslash and the newline cannot be written
    inside the literals above. *)
Definition dquote : char := 34%N.
Definition squote : char := 39%N.
Definition backslash : char := 92%N.
Definition newline : char := 10%N.

Definition char_eqb (a b : char) : bool := N.eqb a b.

Fixpoint str_eqb (a b : str) : bool :=
  match a, b with
  | [], [] => true
  | x :: a', y :: b' => char_eqb x y && str_eqb a' b'
  | _, _ => false
  end.

(** [a <= b] on [str]: lexicographic order on code points. *)
Fixpoint str_leb (a b : str) : bool :=
  match a, b with
  | [], _ => true
  | _ :: _, [] => false
  | x :: a', y :: b' =>
      if (x <? y)%N then true
      else if (y <? x)%N then false
      else str_leb a' b'
  end.

(** [s.startswith(p)] *)
Fixpoint startswith (s p : str) : bool :=
  match p, s with
  | [], _ => true
  | _ :: _, [] => false
  | y :: p', x :: s' => char_eqb x y && startswith s' p'
  end.

(** [p in s] for strings: [p] occurs somewhere in [s]. *)
Fixpoint contains (p s : str) : bool :=
  startswith s p ||
  match s with
  | [] => false
  | _ :: s' => contains p s'
  end.

(** [x in l] for a list or a set of strings. *)
Definition mem (x : str) (l : list str) : bool := existsb (str_eqb x) l.

(** [s.replace(old, new, 1)]: the leftmost occurrence of [old] only. *)
Fixpoint replace_first (old new s : str) : str :=
  if startswith s old then new ++ skipn (length old) s
  else match s with
       | [] => []
       | c :: s' => c :: replace_first old new s'
       end.

(** [str.isspace] on one code point; it is also the class [\s] of [re]
    on [str] patterns. *)
Definition isspace (c : char) : bool :=
  ((9 <=? c) && (c <=? 13) || (28 <=? c) && (c <=? 32)
   || (c =? 133) || (c =? 160) || (c =? 5760)
   || (8192 <=? c) && (c <=? 8202)
   || (c =? 8232) || (c =? 8233) || (c =? 8239) || (c =? 8287)
   || (c =? 12288))%N.

Fixpoint lstrip (s : str) : str :=
  match s with
  | c :: s' => if isspace c then lstrip s' else s
  | [] => []
  end.

Definition rstrip (s : str) : str := rev (lstrip (rev s)).

(** [s.strip()] *)
Definition strip (s : str) : str := rstrip (lstrip s).

(** [s.find(c)] for a one-character needle, [None] standing for [-1]. *)
Fixpoint find_char (c : char) (s : str) : option nat :=
  match s with
  | [] => None
  | x :: s' => if char_eqb x c then Some 0
               else option_map S (find_char c s')
  end.

(** [sep.join(words)] *)
Fixpoint join (sep : str) (words : list str) : str :=
  match words with
  | [] => []
  | [w] => w
  | w :: ws => w ++ sep ++ join sep ws
  end.

(** [str(n)] for a non-negative integer. *)
Fixpoint uint_digits (d : Decimal.uint) : str :=
  match d with
  | Nil => []
  | D0 d => 48%N :: uint_digits d
  | D1 d => 49%N :: uint_digits d
  | D2 d => 50%N :: uint_digits d
  | D3 d => 51%N :: uint_digits d
  | D4 d => 52%N :: uint_digits d
  | D5 d => 53%N :: uint_digits d
  | D6 d => 54%N :: uint_digits d
  | D7 d => 55%N :: uint_digits d
  | D8 d => 56%N :: uint_digits d
  | D9 d => 57%N :: uint_digits d
  end.

Definition str_of_nat (n : nat) : str := uint_digits (Nat.to_uint n).

(** [content.split('\n')] *)
Fixpoint split_lines (s : str) : list str :=
  match s with
  | [] => [[]]
  | c :: s' =>
      if char_eqb c newline then [] :: split_lines s'
      else match split_lines s' with
           | l :: ls => (c :: l) :: ls
           | [] => [[c]]
           end
  end.

(** ** Regular expressions

    The constructs that occur in the patterns of the source: literal
    characters, character classes, concatenation, ordered alternation,
    greedy repetition of a class, and capturing groups. *)

Module Re.

Inductive regex : Type :=
| Eps
| Chr (c : char)
| Cls (p : char -> bool)
| Cat (r1 r2 : regex)
| Alt (r1 r2 : regex)
| Many (p : char -> bool)      (* [p]*, greedy *)
| Group (r : regex).

(** [p]+ *)
Definition Many1 (p : char -> bool) : regex := Cat (Cls p) (Many p).
(** (?:r)? *)
Definition Opt (r : regex) : regex := Alt r Eps.

Fixpoint lit (s : str) : regex :=
  match s with
  | [] => Eps
  | [c] => Chr c
  | c :: s' => Cat (Chr c) (lit s')
  end.

Fixpoint alts (rs : list regex) : regex :=
  match rs with
  | [] => Eps
  | [r] => r
  | r :: rs' => Alt r (alts rs')
  end.

Definition orelse {A} (a b : option A) : option A :=
  match a with Some _ => a | None => b end.

(** Greedy repetition of a class: the longest run first, then shorter
    ones while the continuation [k] fails. *)
Fixpoint many {A} (p : char -> bool) (k : str -> option A) (t : str)
  : option A :=
  match t with
  | x :: t' => if p x then orelse (many p k t') (k t) else k t
  | [] => k t
  end.

(** Backtracking matcher at the head of [s].  The continuation [k]
    receives what is left of the input and the groups captured so far;
    alternatives are tried in the order of Python's [re]: left branch
    first, longest repetition first. *)
Fixpoint run {A} (r : regex) (s : str) (caps : list str)
         (k : str -> list str -> option A) : option A :=
  match r with
  | Eps => k s caps
  | Chr c =>
      match s with
      | x :: s' => if char_eqb x c then k s' caps else None
      | [] => None
      end
  | Cls p =>
      match s with
      | x :: s' => if p x then k s' caps else None
      | [] => None
      end
  | Cat r1 r2 => run r1 s caps (fun s' caps' => run r2 s' caps' k)
  | Alt r1 r2 => orelse (run r1 s caps k) (run r2 s caps k)
  | Many p => many p (fun t => k t caps) s
  | Group r1 =>
      run r1 s caps
          (fun s' caps' => k s' (caps' ++ [firstn (length s - length s') s]))
  end.

(** [pattern.match(s)]: the rest of the input after the match and the
    captured groups. *)
Definition match_at (r : regex) (s : str) : option (str * list str) :=
  run r s [] (fun s' caps => Some (s', caps)).

(** [re.search(pattern, s)] used as a truth value. *)
Fixpoint search (r : regex) (s : str) : bool :=
  match match_at r s with
  | Some _ => true
  | None => match s with
            | [] => false
            | _ :: s' => search r s'
            end
  end.

(** What [findall] reports for one match: the group when the pattern has
    one, the whole match otherwise. *)
Definition reported (s rest : str) (caps : list str) : str :=
  match caps with
  | g :: _ => g
  | [] => firstn (length s - length rest) s
  end.

Fixpoint findall_from (fuel : nat) (r : regex) (s : str) : list str :=
  match fuel with
  | O => []
  | S fuel' =>
    match match_at r s with
    | Some (rest, caps) =>
        reported s rest caps ::
        (if length rest <? length s then findall_from fuel' r rest
         else match s with
              | [] => []
              | _ :: s' => findall_from fuel' r s'
              end)
    | None =>
        match s with
        | [] => []
        | _ :: s' => findall_from fuel' r s'
        end
    end
  end.

(** [re.findall(pattern, s)]: non-overlapping matches, left to right.
    Every step consumes at least one character, so [length s + 1] steps
    reach the end of the input. *)
Definition findall (r : regex) (s : str) : list str :=
  findall_from (S (length s)) r s.

Fixpoint sub_from (fuel : nat) (r : regex) (repl s : str) : str :=
  match fuel with
  | O => s
  | S fuel' =>
    match match_at r s with
    | Some (rest, _) =>
        if length rest <? length s then repl ++ sub_from fuel' r repl rest
        else match s with
             | [] => repl
             | c :: s' => repl ++ c :: sub_from fuel' r repl s'
             end
    | None =>
        match s with
        | [] => []
        | c :: s' => c :: sub_from fuel' r repl s'
        end
    end
  end.

(** [re.sub(pattern, repl, s)] for a constant replacement. *)
Definition sub (r : regex) (repl s : str) : str :=
  sub_from (S (length s)) r repl s.

End Re.
Import Re.

Definition is_char (c : char) : char -> bool := fun x => char_eqb x c.
Definition not_char (c : char) : char -> bool := fun x => negb (char_eqb x c).

Definition lbrace : char := 123%N.
Definition rbrace : char := 125%N.

(** ** ChineseExtractor *)

(** r'\{[^}]+\}' *)
Definition param_pattern : regex :=
  Cat (Chr lbrace) (Cat (Many1 (not_char rbrace)) (Chr rbrace)).

(** ['\u4e00' <= char <= '\u9fff'] *)
Definition is_chinese (c : char) : bool := ((19968 <=? c) && (c <=? 40959))%N.

(** [re.search('[\u4e00-\u9fff]', text)] as a truth value *)
Definition _has_chinese (text : str) : bool := search (Cls is_chinese) text.

Definition _has_params (text : str) : bool := search param_pattern text.

(** ['{' + str(i) + '}'] *)
Definition placeholder (i : nat) : str := lbrace :: str_of_nat i ++ [rbrace].

Fixpoint format_loop (i : nat) (params : list str) (result : str) : str :=
  match params with
  | [] => result
  | param :: params' =>
      format_loop (S i) params' (replace_first param (placeholder i) result)
  end.

Definition _format_string (text : str) : str :=
  let params := findall param_pattern text in
  format_loop 0 params text.


(** [Cat] over a list, for the longer patterns. *)
Fixpoint cats (rs : list regex) : regex :=
  match rs with
  | [] => Eps
  | [r] => r
  | r :: rs' => Cat r (cats rs')
  end.

Definition word (s : string) : regex := lit (u s).

Definition exception_types : list regex :=
  map word
    ["Exception"; "NullReferenceException"; "ArgumentNullException";
     "ArgumentException"; "IndexOutOfRangeException";
     "InvalidOperationException"; "NotImplementedException";
     "UnauthorizedAccessException"; "KeyNotFoundException";
     "DivideByZeroException"; "OverflowException"; "FormatException";
     "TimeoutException"; "IOException"; "DirectoryNotFoundException";
     "FileNotFoundException"; "PathTooLongException"]%string.

Definition lparen : char := 40%N.
Definition rparen : char := 41%N.

Definition IGNORE_API_PATTERNS : list regex :=
  [ (* Debug\.(Log|LogError|LogWarning|LogFormat|LogException) *)
    Cat (word "Debug.")
        (Group (alts (map word ["Log"; "LogError"; "LogWarning";
                                "LogFormat"; "LogException"]%string)));
    (* SLApp\.Log\.(Info|Warning|Error) *)
    Cat (word "SLApp.Log.")
        (Group (alts (map word ["Info"; "Warning"; "Error"]%string)));
    (* SLApp\.Debug\.(Log|LogFormat|LogError|LogWatchBegin|LogWatchEnd) *)
    Cat (word "SLApp.Debug.")
        (Group (alts (map word ["Log"; "LogFormat"; "LogError";
                                "LogWatchBegin"; "LogWatchEnd"]%string)));
    (* UnityEngine\.Debug\. *)
    word "UnityEngine.Debug.";
    (* Console\.WriteLine *)
    word "Console.WriteLine";
    (* UnityEditor\.EditorUtility\.DisplayDialog *)
    word "UnityEditor.EditorUtility.DisplayDialog";
    (* throw\s+new\s+(?:System\.)?(?:Exception|...)\s*\([^)]*\) *)
    cats [word "throw"; Many1 isspace; word "new"; Many1 isspace;
          Opt (word "System."); alts exception_types; Many isspace;
          Chr lparen; Many (not_char rparen); Chr rparen];
    (* \.LogException\s*\( *)
    cats [word ".LogException"; Many isspace; Chr lparen];
    (* \.LogErrorException\s*\( *)
    cats [word ".LogErrorException"; Many isspace; Chr lparen];
    (* ExceptionHelper\. *)
    word "ExceptionHelper." ].

(** The pattern of the interpolated literals: a dollar sign, a double
    quote, a group of characters other than the double quote, a double
    quote. *)
Definition interpolated_pattern : regex :=
  cats [Chr 36%N; Chr dquote; Group (Many (not_char dquote)); Chr dquote].

(** The pattern of the plain literals: a double quote, a group of
    characters other than the double quote, a double quote. *)
Definition plain_pattern : regex :=
  cats [Chr dquote; Group (Many (not_char dquote)); Chr dquote].

(** The first loop of [_find_chinese_strings]: some ignore pattern is
    found in the line. *)
Definition ignored (line : str) : bool :=
  existsb (fun pattern => search pattern line) IGNORE_API_PATTERNS.

(** The loop over the interpolated matches. *)
Definition interpolated_kept (line : str) : list str :=
  filter (fun m => _has_chinese m || _has_params m)
         (findall interpolated_pattern line).

(** One step of the loop over the plain matches. *)
Definition plain_step (results : list str) (m : str) : list str :=
  if _has_chinese m && negb (mem m results) then results ++ [m]
  else results.

Definition _find_chinese_strings (line : str) : list str :=
  if ignored line then []
  else fold_left plain_step (findall plain_pattern line)
                 (interpolated_kept line).

Definition lbracket : char := 91%N.
Definition rbracket : char := 93%N.

Definition _is_attribute_line (line : str) : bool :=
  let stripped := strip line in
  if startswith stripped [lbracket] && contains [rbracket] stripped then
    match find_char rbracket stripped with
    | Some bracket_end =>
        let after_bracket := strip (skipn (bracket_end + 1) stripped) in
        match after_bracket with
        | [] => true
        | _ :: _ => false
        end
    | None => false
    end
  else false.

(** [result and result[-1] == c] *)
Definition last_is (result : str) (c : char) : bool :=
  match rev result with
  | x :: _ => char_eqb x c
  | [] => false
  end.

Definition slash : char := 47%N.

Fixpoint remove_comment_loop (line result : str) (in_string : bool)
         (string_char : option char) : str :=
  match line with
  | [] => result
  | ch :: rest =>
    if negb in_string && (char_eqb ch dquote || char_eqb ch squote) then
      remove_comment_loop rest (result ++ [ch]) true (Some ch)
    else if in_string &&
            match string_char with
            | Some q => char_eqb ch q
            | None => false
            end then
      if last_is result backslash then
        remove_comment_loop rest (removelast result ++ [ch])
                            in_string string_char
      else remove_comment_loop rest (result ++ [ch]) false None
    else if negb in_string && char_eqb ch slash && last_is result slash
    then result                                           (* break *)
    else remove_comment_loop rest (result ++ [ch]) in_string string_char
  end.

Definition _remove_comment (line : str) : str :=
  remove_comment_loop line [] false None.

Record ChineseString : Type := mkChineseString { value : str; pos : str }.

(** [f"{file_path.name}---{i}"] *)
Definition make_pos (name : str) (i : nat) : str :=
  name ++ u "---" ++ str_of_nat i.

(** The body of the loop of [extract_from_file] for line number [i]:
    the new value of [in_multiline_comment] and the records appended to
    [results].  The inner loop over the ignore patterns only
    [continue]s itself and has no effect; the stripped line is computed
    and not used. *)
Definition scan_line (name : str) (in_multiline_comment : bool) (i : nat)
           (line : str) : bool * list ChineseString :=
  let original_line := line in
  let in_multiline_comment :=
    if contains (u "/*") line then true else in_multiline_comment in
  if contains (u "*/") line then (false, [])
  else if in_multiline_comment then (in_multiline_comment, [])
  else if _is_attribute_line line then (in_multiline_comment, [])
  else
    let line := _remove_comment line in
    let chinese_strings := _find_chinese_strings original_line in
    (in_multiline_comment,
     map (fun text => mkChineseString (_format_string text) (make_pos name i))
         chinese_strings).

Fixpoint scan_lines (name : str) (in_multiline_comment : bool) (i : nat)
         (lines : list str) : list ChineseString :=
  match lines with
  | [] => []
  | line :: rest =>
      let (st, found) := scan_line name in_multiline_comment i line in
      found ++ scan_lines name st (S i) rest
  end.

(** *** Failure

    A Python call either returns a value or raises an exception (here:
    its message). *)
Inductive outcome (A : Type) : Type :=
| Returned (a : A)
| Raised (e : str).
Arguments Returned {A} a.
Arguments Raised {A} e.

Definition bind {A B} (m : outcome A) (f : A -> outcome B) : outcome B :=
  match m with
  | Returned a => f a
  | Raised e => Raised e
  end.

(** [try: m  except Exception as e: handler(e)] *)
Definition try_except {A} (m : outcome A) (handler : str -> outcome A)
  : outcome A :=
  match m with
  | Returned a => Returned a
  | Raised e => handler e
  end.

Notation "x <- m ;; k" := (bind m (fun x => k))
  (at level 61, m at next level, right associativity).

(** A file of the tree: its name and what opening and reading it as
    UTF-8 gives. *)
Record source_file : Type := mkFile { file_name : str; read : outcome str }.

Definition extract_from_file (f : source_file) : outcome (list ChineseString) :=
  let results := [] in
  try_except
    (content <- read f ;;
     let lines := split_lines content in
     Returned (results ++ scan_lines (file_name f) false 1 lines))
    (fun e => Returned results).

Definition IGNORE_FOLDERS : list str :=
  map u ["bind"; "Bind"; "BIND"; ".git"; ".svn"; "node_modules"]%string.

Definition CODE_EXTENSIONS : list str := [u ".cs"].

(** [Path(file).suffix]: from the last dot, unless the dot is the first
    or the last character of the name. *)
Definition suffix (name : str) : str :=
  match find_char 46%N (rev name) with
  | None => []
  | Some j =>
      let i := length name - 1 - j in
      if (0 <? i) && (i <? length name - 1) then skipn i name else []
  end.

(** A directory as [os.walk] lists it: its files, then its
    sub-directories. *)
#[local] Set Warnings "-register-all".
Inductive folder : Type :=
| Folder (name : str) (files : list source_file) (dirs : list folder).

Definition folder_name (d : folder) : str :=
  match d with Folder name _ _ => name end.

(** The loop over the files of one directory. *)
Fixpoint extract_from_files (files : list source_file)
  : outcome (list ChineseString) :=
  match files with
  | [] => Returned []
  | file :: rest =>
      if negb (mem (suffix (file_name file)) CODE_EXTENSIONS) then
        extract_from_files rest
      else
        strings <- extract_from_file file ;;
        more <- extract_from_files rest ;;
        Returned (strings ++ more)
  end.

Fixpoint extract_from_directory (d : folder) : outcome (list ChineseString) :=
  match d with
  | Folder _ files dirs =>
      here <- extract_from_files files ;;
      below <- (fix walk (ds : list folder) : outcome (list ChineseString) :=
                  match ds with
                  | [] => Returned []
                  | d' :: ds' =>
                      if mem (folder_name d') IGNORE_FOLDERS then walk ds'
                      else
                        r <- extract_from_directory d' ;;
                        more <- walk ds' ;;
                        Returned (r ++ more)
                  end) dirs ;;
      Returned (here ++ below)
  end.

(** ** Dictionaries

    A Python [dict] with string keys: insertion order is kept, and
    assigning to a key that is present changes its value in place. *)

Module Dict.
Section Dict.
Variable V : Type.

Definition t : Type := list (str * V).

Fixpoint get (d : t) (k : str) : option V :=
  match d with
  | [] => None
  | (k', v) :: d' => if str_eqb k k' then Some v else get d' k
  end.

(** [k in d] *)
Definition has (d : t) (k : str) : bool :=
  match get d k with Some _ => true | None => false end.

(** [d[k] = v] *)
Fixpoint set (d : t) (k : str) (v : V) : t :=
  match d with
  | [] => [(k, v)]
  | (k', v') :: d' =>
      if str_eqb k k' then (k', v) :: d' else (k', v') :: set d' k v
  end.

(** [d.items()] *)
Definition items (d : t) : list (str * V) := d.

(** A dictionary display [{k1: v1, k2: v2, ...}]. *)
Definition display (l : list (str * V)) : t :=
  fold_left (fun d kv => set d (fst kv) (snd kv)) l [].

End Dict.
End Dict.

(** ** Key generation *)

Definition nonempty (s : str) : bool :=
  match s with [] => false | _ :: _ => true end.

Definition local_word_map : Dict.t str := Dict.display [
    (u "抽", u "DRAW"); (u "卡", u "CARD"); (u "道", u "ITEM");
    (u "具", u "PROP"); (u "足", u "SUFFICIENT"); (u "不", u "NOT");
    (u "再", u "RE"); (u "结", u "OATH"); (u "义", u "BIND");
    (u "次", u "TIME"); (u "必", u "MUST"); (u "得", u "GET");
    (u "红", u "RED"); (u "将", u "GENERAL"); (u "累", u "TOTAL");
    (u "计", u "COUNT"); (u "总", u "TOTAL"); (u "资", u "RESOURCE");
    (u "源", u "SOURCE"); (u "确", u "CONFIRM"); (u "认", u "CONFIRM");
    (u "购", u "PURCHASE"); (u "买", u "BUY"); (u "这", u "THIS");
    (u "个", u "GE"); (u "吗", u "QUESTION"); (u "请", u "PLEASE");
    (u "拖", u "DRAG"); (u "拽", u "DROP"); (u "指", u "SPECIFY");
    (u "定", u "FIXED"); (u "位", u "POSITION"); (u "物", u "ITEM");
    (u "品", u "PRODUCT"); (u "数", u "NUMBER"); (u "量", u "AMOUNT");
    (u "无", u "NO"); (u "法", u "WAY"); (u "完", u "COMPLETE");
    (u "成", u "COMPLETE"); (u "探", u "EXPLORE"); (u "索", u "SEARCH");
    (u "度", u "DEGREE"); (u "推", u "RECOMMEND"); (u "荐", u "RECOMMEND");
    (u "战", u "BATTLE"); (u "力", u "POWER"); (u "等", u "LEVEL");
    (u "阵", u "LINEUP"); (u "容", u "CONTAINER"); (u "为", u "IS");
    (u "空", u "EMPTY"); (u "无", u "CANNOT"); (u "法", u "ABLE");
    (u "跳", u "JUMP"); (u "过", u "PASS"); (u "主", u "MAIN");
    (u "线", u "LINE"); (u "关", u "LEVEL"); (u "尚", u "NOT");
    (u "未", u "UN"); (u "解", u "UNLOCK"); (u "锁", u "LOCK");
    (u "路", u "PATH"); (u "径", u "WAY"); (u "点", u "POINT");
    (u "错", u "ERROR"); (u "误", u "ERROR"); (u "需", u "NEED");
    (u "地", u "MAP"); (u "图", u "MAP"); (u "资", u "ASSET");
    (u "产", u "ASSET"); (u "态", u "STATE"); (u "信", u "INFO");
    (u "息", u "TION"); (u "显", u "SHOW"); (u "示", u "SHOW");
    (u "奖", u "REWARD"); (u "励", u "INCENTIVE"); (u "务", u "TASK");
    (u "完", u "COMPLETE"); (u "败", u "FAIL"); (u "功", u "SUCCESS");
    (u "返", u "BACK"); (u "回", u "RETURN"); (u "关", u "CLOSE");
    (u "闭", u "CLOSE"); (u "打", u "OPEN"); (u "开", u "OPEN");
    (u "设", u "SET"); (u "置", u "TING"); (u "选", u "OPTION");
    (u "项", u "ITEM"); (u "提", u "TIP"); (u "警", u "WARNING");
    (u "告", u "ALERT"); (u "可", u "CAN"); (u "以", u "ABLE");
    (u "任", u "APPOINT"); (u "命", u "NAME"); (u "州", u "STATE");
    (u "牧", u "GOVERNOR"); (u "获", u "GET"); (u "得", u "OBTAIN");
    (u "额", u "EXTRA"); (u "外", u "EXTRA"); (u "占", u "OCCUPY");
    (u "领", u "LEAD"); (u "产", u "OUTPUT"); (u "出", u "OUTPUT");
    (u "加", u "BONUS"); (u "成", u "cheng")].

Definition default_word_map : Dict.t str := Dict.display [
    (u "探索", u "EXPLORE"); (u "度", u "DEGREE");
    (u "推荐", u "RECOMMEND"); (u "战力", u "POWER");
    (u "等级", u "LEVEL"); (u "阵容", u "LINEUP");
    (u "为空", u "EMPTY"); (u "无法", u "CANNOT"); (u "跳过", u "SKIP");
    (u "主线", u "MAINLINE"); (u "关卡", u "LEVEL");
    (u "尚未", u "NOT"); (u "解锁", u "UNLOCK"); (u "路径", u "PATH");
    (u "点", u "POINT"); (u "数量", u "COUNT"); (u "错误", u "ERROR");
    (u "总", u "TOTAL"); (u "需", u "NEED"); (u "地图", u "MAP");
    (u "资产", u "ASSET"); (u "状态", u "STATE"); (u "信息", u "INFO");
    (u "显示", u "SHOW"); (u "奖励", u "REWARD"); (u "任务", u "TASK");
    (u "完成", u "COMPLETE"); (u "失败", u "FAIL");
    (u "成功", u "SUCCESS"); (u "确认", u "CONFIRM");
    (u "取消", u "CANCEL"); (u "返回", u "BACK"); (u "关闭", u "CLOSE");
    (u "打开", u "OPEN"); (u "设置", u "SETTING");
    (u "选项", u "OPTION"); (u "提示", u "TIP");
    (u "警告", u "WARNING"); (u "错误", u "ERROR"); (u "可以", u "CAN");
    (u "任命", u "APPOINT"); (u "州牧", u "GOVERNOR");
    (u "获得", u "GET"); (u "额外", u "EXTRA"); (u "占领", u "OCCUPY");
    (u "产出", u "OUTPUT"); (u "加成", u "BONUS"); (u "抽", u "DRAW");
    (u "卡", u "CARD"); (u "道", u "ITEM"); (u "具", u "PROP");
    (u "足", u "SUFFICIENT"); (u "次", u "TIME"); (u "必", u "MUST");
    (u "得", u "GET"); (u "红", u "RED"); (u "将", u "GENERAL");
    (u "累", u "TOTAL"); (u "计", u "COUNT"); (u "确", u "CONFIRM");
    (u "认", u "CONFIRM"); (u "购", u "PURCHASE"); (u "买", u "BUY");
    (u "请", u "PLEASE"); (u "拖", u "DRAG"); (u "拽", u "DROP");
    (u "指", u "SPECIFY"); (u "位", u "POSITION"); (u "物", u "ITEM");
    (u "品", u "PRODUCT"); (u "数", u "NUMBER"); (u "量", u "AMOUNT");
    (u "无", u "NO"); (u "法", u "WAY"); (u "完", u "COMPLETE");
    (u "敌", u "ENEMY"); (u "方", u "SIDE"); (u "还", u "STILL");
    (u "有", u "HAVE"); (u "单", u "SINGLE"); (u "位", u "UNIT");
    (u "战", u "BATTLE"); (u "斗", u "FIGHT"); (u "胜", u "VICTORY");
    (u "利", u "PROFIT"); (u "奖", u "REWARD"); (u "励", u "BONUS");
    (u "准", u "PREPARE"); (u "备", u "READY"); (u "开", u "START");
    (u "始", u "BEGIN"); (u "恭", u "CONGRATULATE"); (u "喜", u "JOY");
    (u "获", u "GET")].

(** [word_map.get(char, char)] *)
Definition lookup (word_map : Dict.t str) (ch : char) : str :=
  match Dict.get word_map [ch] with
  | Some w => w
  | None => [ch]
  end.

(** ['\u4e00' <= translated <= '\u9fff'], a comparison of strings *)
Definition still_chinese (translated : str) : bool :=
  str_leb [19968%N] translated && str_leb translated [40959%N].

(** [result[:max_len]] when [max_len > 0], for the Python integer
    [max_len = 50 - len(module_name) - 1]. *)
Definition limit (module_name result : str) : str :=
  let max_len := (50 - Z.of_nat (length module_name) - 1)%Z in
  if (0 <? max_len)%Z then firstn (Z.to_nat max_len) result else result.

Section KeyAssigner.

(** Two tables of the Unicode database are left open: [str.upper] and
    the class [\d] of [re] (the decimal digits of every script). *)
Variable upper : str -> str.
Variable isdecimal : char -> bool.

(** r'\{[\d]+\}' *)
Definition index_pattern : regex :=
  Cat (Chr lbrace) (Cat (Many1 isdecimal) (Chr rbrace)).

(** The loop of [_local_translate] over the characters of [text]. *)
Fixpoint local_words (text : str) : list str :=
  match text with
  | [] => []
  | ch :: rest =>
      if is_chinese ch then
        let translated := lookup local_word_map ch in
        if still_chinese translated then local_words rest
        else translated :: local_words rest
      else local_words rest
  end.

Definition _local_translate (chinese_text context : str) : str :=
  let text := strip (sub index_pattern [] chinese_text) in
  if negb (nonempty text) then
    let param_count := length (findall index_pattern chinese_text) in
    if nonempty context then
      upper context ++ u "_PARAM_" ++ str_of_nat param_count
    else u "PARAM_" ++ str_of_nat param_count
  else
    let result_words := local_words text in
    match result_words with
    | [] =>
        let param_count := length (findall index_pattern chinese_text) in
        if 0 <? param_count then
          upper context ++ u "_PARAM_" ++ str_of_nat param_count
        else upper context ++ u "_TEXT"
    | _ :: _ =>
        let module_name := if nonempty context then upper context else [] in
        let result := join (u "_") result_words in
        let result := limit module_name result in
        if nonempty module_name then module_name ++ u "_" ++ result
        else result
    end.

(** The loop of [_default_key] over the characters of [clean_text]. *)
Fixpoint default_words (clean_text : str) : list str :=
  match clean_text with
  | [] => []
  | ch :: rest =>
      if is_chinese ch then lookup default_word_map ch :: default_words rest
      else default_words rest
  end.

Definition _default_key (text context : str) : str :=
  let module_name := if nonempty context then upper context else [] in
  let clean_text := strip (sub index_pattern [] text) in
  if negb (nonempty clean_text) then
    let param_count := length (findall index_pattern text) in
    if nonempty module_name then
      module_name ++ u "_PARAM_" ++ str_of_nat param_count
    else u "PARAM_" ++ str_of_nat param_count
  else
    let words := default_words clean_text in
    match words with
    | [] => if nonempty module_name then module_name ++ u "_TEXT"
            else u "TEXT"
    | _ :: _ =>
        let result := join (u "_") words in
        let result := limit module_name result in
        if nonempty module_name then module_name ++ u "_" ++ result
        else result
    end.

(** *** DeepSeekTranslator

    The translation service is outside the program: a call changes the
    outside world and returns a text, nothing, or fails. *)
Variable World : Type.
Variable _call_api : World -> str -> str -> outcome (option str) * World.

Record translator : Type :=
  mkTranslator { cache : Dict.t str; world : World }.

Definition translate (tr : translator) (chinese_text context : str)
  : str * translator :=
  let cache_key := context ++ u ":" ++ chinese_text in
  let fresh :=
    let result := _local_translate chinese_text context in
    let (answer, w) := _call_api (world tr) chinese_text context in
    let keep := (result, mkTranslator (Dict.set (cache tr) cache_key result) w) in
    match answer with
    | Returned (Some api_result) =>
        if nonempty api_result && negb (str_eqb api_result result) then
          (api_result,
           mkTranslator (Dict.set (cache tr) cache_key api_result) w)
        else keep
    | Returned None => keep
    | Raised _ => keep
    end in
  match Dict.get (cache tr) cache_key with
  | Some cached => if nonempty cached then (cached, tr) else fresh
  | None => fresh
  end.

(** ** CSVGenerator *)

(** A row of the table: the dictionary with the fields [key], [value]
    and [pos]. *)
Record data_row : Type :=
  mkRow { row_key : str; row_value : str; row_pos : str }.

(** The first loop of [generate]: [unique_data]. *)
Definition unique_step (unique_data : Dict.t ChineseString)
           (s : ChineseString) : Dict.t ChineseString :=
  if negb (Dict.has unique_data (value s)) then
    Dict.set unique_data (value s) s
  else unique_data.

Definition unique (strings : list ChineseString) : Dict.t ChineseString :=
  fold_left unique_step strings [].

(** The key of one row. *)
Definition row_for (tr : option translator) (context value : str)
  : str * option translator :=
  let (key, tr') :=
    match tr with
    | Some t => let (k, t') := translate t value context in (k, Some t')
    | None => (_default_key value context, None)
    end in
  let key :=
    if nonempty context then
      let module_prefix := upper context ++ u "_" in
      if negb (startswith key module_prefix) then module_prefix ++ key
      else key
    else key in
  (key, tr').

(** The second loop of [generate]: [data_rows]. *)
Fixpoint make_rows (tr : option translator) (context : str)
         (items : list (str * ChineseString))
  : list data_row * option translator :=
  match items with
  | [] => ([], tr)
  | (value, cs) :: rest =>
      let (key, tr1) := row_for tr context value in
      let (rows, tr2) := make_rows tr1 context rest in
      (mkRow key value (pos cs) :: rows, tr2)
  end.

(** [generate]: the rows written to the table, or [None] when nothing
    is written, and the translator after the calls. *)
Definition generate (tr : option translator) (strings : list ChineseString)
           (context : str) : option (list data_row) * option translator :=
  match strings with
  | [] => (None, tr)
  | _ :: _ =>
      let unique_data := unique strings in
      let (data_rows, tr') :=
        make_rows tr context (Dict.items unique_data) in
      (Some data_rows, tr')
  end.

End KeyAssigner.

(** [str.upper] and [\d] on ASCII text, where they are what Python
    computes. *)
Definition ascii_upper (s : str) : str :=
  map (fun c => if ((97 <=? c) && (c <=? 122))%N then (c - 32)%N else c) s.

Definition ascii_digit (c : char) : bool := ((48 <=? c) && (c <=? 57))%N.


(** ** Reference notions used to state the properties *)

(** The normalisation the documentation describes: the [i]-th span
    matched by the placeholder pattern, counting from the left, becomes
    [{i}]. *)
Fixpoint renumber_from (fuel i : nat) (s : str) : str :=
  match fuel with
  | O => s
  | S fuel' =>
    match match_at param_pattern s with
    | Some (rest, _) => placeholder i ++ renumber_from fuel' (S i) rest
    | None =>
        match s with
        | [] => []
        | c :: s' => c :: renumber_from fuel' i s'
        end
    end
  end.

Definition renumber (text : str) : str :=
  renumber_from (S (length text)) 0 text.

(** The first element of [strings] whose value is [v]: its position and
    its index. *)
Definition first_pos (v : str) (strings : list ChineseString) : option str :=
  option_map pos (find (fun s => str_eqb (value s) v) strings).

Fixpoint first_index (v : str) (strings : list ChineseString) : nat :=
  match strings with
  | [] => 0
  | s :: rest => if str_eqb (value s) v then 0 else S (first_index v rest)
  end.

(** The elements of [strings] whose value is neither in [seen] nor the
    value of an earlier element. *)
Fixpoint first_occurrences (seen : list str) (strings : list ChineseString)
  : list ChineseString :=
  match strings with
  | [] => []
  | s :: rest =>
      if mem (value s) seen then first_occurrences seen rest
      else s :: first_occurrences (seen ++ [value s]) rest
  end.

(** A literal between double quotes, as it stands in a source line. *)
Definition quoted (s : str) : str := dquote :: s ++ [dquote].

(** The pair stored in [unique_data] for a record. *)
Definition entry (s : ChineseString) : str * ChineseString := (value s, s).

Definition underscore : char := 95%N.

(** ** Lines, scopes and values of the examples *)

(** The suppressed line of the documentation: an assignment of the
    literal 错误信息 followed by a call of [Debug.LogError]. *)
Definition suppressed_line : str :=
  u "var x = " ++ quoted (u "错误信息") ++ u "; Debug.LogError("
    ++ quoted (u "other") ++ u ")".

(** A line that opens a block comment, and one that closes it before a
    statement. *)
Definition opener_line : str := u "/* 调试用".
Definition closer_line : str := u "   旧的提示 */ var s = " ++ quoted (u "提示").

(** An interpolated literal of placeholders only, added to a plain
    literal with script characters. *)
Definition mixed_line : str :=
  u "label.text = $" ++ quoted (u "{count}/{max}") ++ u " + "
    ++ quoted (u "个道具") ++ u ";".

(** The same interpolated literal twice on a line. *)
Definition repeated_line : str :=
  u "a.text = $" ++ quoted (u "{x}级") ++ u "; b.text = $"
    ++ quoted (u "{x}级") ++ u ";".

(** A plain literal with two escaped quotes inside: 他说, backslash,
    quote, 你好, backslash, quote. *)
Definition escaped_line : str :=
  u "var s = " ++ [dquote] ++ u "他说\" ++ [dquote] ++ u "你好\"
    ++ [dquote; dquote] ++ u ";".

(** A scope name of 50 characters and a value of 18 mapped
    characters. *)
Definition long_scope : str :=
  u "ActivityCenterLimitedTimeExchangeShopRewardPreview".

Definition long_text : str := u "抽卡道具不足抽卡道具不足抽卡道具不足".

(** A translation service that never answers. *)
Definition no_service : unit -> str -> str -> outcome (option str) * unit :=
  fun w _ _ => (Returned None, w).


(** ** Notions used by the further properties *)

(** The texts [params] are to become [{i}], [{i+1}], ...: none of them
    is one of the placeholders written before its turn. *)
Fixpoint fresh (i : nat) (params : list str) : Prop :=
  match params with
  | [] => True
  | p :: rest => (forall j, j < i -> p <> placeholder j) /\ fresh (S i) rest
  end.

(** A text in which every opening brace is followed by a closing brace
    at once or opens one of the placeholders [{0}], ..., [{i-1}]. *)
Inductive settled (i : nat) : str -> Prop :=
| settled_nil : settled i []
| settled_char (c : char) (d : str) :
    c <> lbrace -> settled i d -> settled i (c :: d)
| settled_braces (d : str) :
    settled i d -> settled i (lbrace :: rbrace :: d)
| settled_placeholder (j : nat) (d : str) :
    j < i -> settled i d -> settled i (placeholder j ++ d).

(** The entries of a table that a one-character lookup can reach. *)
Definition single_entries (word_map : Dict.t str) : Dict.t str :=
  filter (fun kv => length (fst kv) =? 1) word_map.

Definition dollar : char := 36%N.

(** Texts that suppress a line wherever they stand in it, and the
    words one of which every suppressed line contains. *)
Definition suppressing_words : list str :=
  map u ["Debug.Log"; "SLApp.Log.Info"; "SLApp.Debug.Log";
         "UnityEngine.Debug."; "Console.WriteLine";
         "UnityEditor.EditorUtility.DisplayDialog";
         "ExceptionHelper."]%string.

Definition leading_words : list str :=
  map u ["Debug."; "SLApp.Log."; "SLApp.Debug."; "UnityEngine.Debug.";
         "Console.WriteLine"; "UnityEditor.EditorUtility.DisplayDialog";
         "throw"; ".LogException"; ".LogErrorException";
         "ExceptionHelper."]%string.

(** The two-line file of the documentation: a comment, then an
    assignment of a literal. *)
Definition sample_file : source_file :=
  mkFile (u "Shop.cs")
         (Returned (u "// 抽卡" ++ [newline] ++ u "var s = "
                      ++ quoted (u "抽卡道具不足") ++ u ";")).

(** A file that is not a source file, and a folder that is ignored. *)
Definition meta_file : source_file :=
  mkFile (u "Shop.cs.meta") (Returned (u "s = " ++ quoted (u "元数据"))).

Definition bind_folder : folder := Folder (u "Bind") [sample_file] [].

(** A translation service that answers every request with the same
    text. *)
Definition fixed_service (answer : str)
  : unit -> str -> str -> outcome (option str) * unit :=
  fun w _ _ => (Returned (Some answer), w).

(** A text without character of the script range. *)
Definition script_free (s : str) : bool :=
  forallb (fun c => negb (is_chinese c)) s.

(** A record and a translator with an empty cache, for the examples. *)
Definition sample_record : ChineseString :=
  mkChineseString (u "抽卡道具不足") (u "Shop.cs---2").

Definition empty_translator : translator unit := mkTranslator [] tt.

(** What precedes the rest of a key: the module name and an underscore,
    or nothing when the module name is empty. *)
Definition scope_prefix (module_name : str) : str :=
  if nonempty module_name then module_name ++ u "_" else [].

(** A scope name of 46 characters. *)
Definition scope46 : str :=
  u "ActivityCenterLimitedTimeExchangeShopRewardTab".

(** * Properties *)

(** ** Text *)

Lemma char_eqb_eq (a b : char) : char_eqb a b = true <-> a = b.
Proof. apply N.eqb_eq. Qed.

Lemma str_eqb_eq (a b : str) : str_eqb a b = true <-> a = b.
Proof.
  revert b; induction a as [|x a IH]; intros [|y b]; simpl;
    try (split; [discriminate | discriminate]); try tauto.
  rewrite andb_true_iff, char_eqb_eq, IH.
  split; [intros [-> ->]; reflexivity | intros E; inversion E; auto].
Qed.

Lemma str_eqb_refl (a : str) : str_eqb a a = true.
Proof. apply str_eqb_eq; reflexivity. Qed.

Lemma str_eqb_neq (a b : str) : str_eqb a b = false <-> a <> b.
Proof.
  rewrite <- str_eqb_eq. destruct (str_eqb a b); split; congruence.
Qed.

Lemma str_eq_dec (a b : str) : {a = b} + {a <> b}.
Proof. apply list_eq_dec, N.eq_dec. Defined.

Lemma mem_In (x : str) (l : list str) : mem x l = true <-> In x l.
Proof.
  unfold mem. rewrite existsb_exists. split.
  - intros [y [Hy E]]. apply str_eqb_eq in E. subst; assumption.
  - intros H. exists x. split; [assumption | apply str_eqb_refl].
Qed.

Lemma mem_not_In (x : str) (l : list str) : mem x l = false <-> ~ In x l.
Proof.
  rewrite <- mem_In. destruct (mem x l); split; congruence.
Qed.

Lemma startswith_self_app (p s : str) : startswith (p ++ s) p = true.
Proof.
  induction p as [|c p IH]; simpl; [destruct s; reflexivity|].
  rewrite IH. unfold char_eqb. rewrite N.eqb_refl. reflexivity.
Qed.

Lemma startswith_app (s p : str) :
  startswith s p = true -> s = p ++ skipn (length p) s.
Proof.
  revert s; induction p as [|c p IH]; intros s H; simpl in *.
  - reflexivity.
  - destruct s as [|x s]; [discriminate|].
    apply andb_true_iff in H. destruct H as [E H].
    apply char_eqb_eq in E. subst. simpl. f_equal. apply IH, H.
Qed.

(** Replacing a text by itself changes nothing. *)
Lemma replace_first_same (p s : str) : replace_first p p s = s.
Proof.
  induction s as [|c s IH].
  - destruct p; reflexivity.
  - cbn [replace_first].
    destruct (startswith (c :: s) p) eqn:E.
    + symmetry. apply startswith_app, E.
    + f_equal. apply IH.
Qed.

(** ** Placeholder normalisation *)

(** The example of the documentation: two different expressions. *)
Lemma format_string_example :
  _format_string (u "Lv.{cfg.level} / {NumberUtils.Format(power)}")
  = u "Lv.{0} / {1}".
Proof. vm_compute. reflexivity. Qed.

(** The same expression twice receives two indices. *)
Lemma format_string_repeated_expression :
  _format_string (u "{lv}级/{lv}级") = u "{0}级/{1}级".
Proof. vm_compute. reflexivity. Qed.

Lemma format_loop_canonical (n i : nat) (text : str) :
  format_loop i (map placeholder (seq i n)) text = text.
Proof.
  revert i; induction n as [|n IH]; intros i; simpl; [reflexivity|].
  rewrite replace_first_same. apply IH.
Qed.

(** X2: A text whose placeholders already read [{0}], [{1}], ... in this
    order is left as it is. *)
Lemma format_string_canonical (n : nat) (text : str) :
  findall param_pattern text = map placeholder (seq 0 n) ->
  _format_string text = text.
Proof.
  intros H. unfold _format_string. rewrite H. apply format_loop_canonical.
Qed.

Lemma format_string_canonical_witness :
  _format_string (u "第{0}关 {1}/{2}") = u "第{0}关 {1}/{2}".
Proof. apply (format_string_canonical 3). vm_compute. reflexivity. Defined.

(** C2 (normalisation is idempotent) fails on the code.  Each step
    replaces the leftmost occurrence of the placeholder text in the
    partly rewritten result, which can be an index written by an
    earlier step: normalising ["{1}对{0}造成{0}点伤害"] gives
    ["{1}对{2}造成{0}点伤害"], and normalising that again gives
    ["{2}对{1}造成{0}点伤害"]. *)
Theorem C2_format_string_not_idempotent :
  let x := u "{1}对{0}造成{0}点伤害" in
  _format_string x = u "{1}对{2}造成{0}点伤害" /\
  _format_string (_format_string x) = u "{2}对{1}造成{0}点伤害" /\
  _format_string (_format_string x) <> _format_string x.
Proof.
  vm_compute. repeat split; discriminate.
Qed.

(** C3 (every span is replaced by [{0}], [{1}], ... from left to right)
    fails on the code for the same reason: in ["获得{1}个{0}"] the second
    step rewrites the [{0}] that the first step has just written, and
    the text comes back unchanged, where numbering the spans from the
    left gives ["获得{0}个{1}"]. *)
Theorem C3_format_string_misnumbers :
  _format_string (u "获得{1}个{0}") = u "获得{1}个{0}" /\
  renumber (u "获得{1}个{0}") = u "获得{0}个{1}" /\
  _format_string (u "获得{1}个{0}") <> renumber (u "获得{1}个{0}").
Proof.
  vm_compute. repeat split; discriminate.
Qed.

(** On the example of the documentation the code and the numbering from
    the left agree. *)
Lemma renumber_example :
  renumber (u "Lv.{cfg.level} / {NumberUtils.Format(power)}")
  = _format_string (u "Lv.{cfg.level} / {NumberUtils.Format(power)}").
Proof. vm_compute. reflexivity. Qed.

(** ** Suppression *)

Lemma ignored_iff (line : str) :
  ignored line = true <->
  exists pattern, In pattern IGNORE_API_PATTERNS /\ search pattern line = true.
Proof. unfold ignored. apply existsb_exists. Qed.

(** C4: a raw line in which some ignore pattern is found yields no
    candidate, and the line of the file loop that is tested is the raw
    one: the records of that line are empty whatever its comments. *)
Theorem C4_ignored_line_yields_nothing (line : str) :
  (exists pattern,
      In pattern IGNORE_API_PATTERNS /\ search pattern line = true) ->
  _find_chinese_strings line = [] /\
  forall name st i, snd (scan_line name st i line) = [].
Proof.
  intros H. apply ignored_iff in H.
  assert (E : _find_chinese_strings line = []).
  { unfold _find_chinese_strings. rewrite H. reflexivity. }
  split; [exact E|].
  intros name st i. unfold scan_line. rewrite E.
  destruct (contains (u "*/") line); [reflexivity|].
  destruct (if contains (u "/*") line then true else st); [reflexivity|].
  destruct (_is_attribute_line line); reflexivity.
Qed.

Lemma C4_ignored_line_witness :
  _find_chinese_strings suppressed_line = [] /\
  forall name st i, snd (scan_line name st i suppressed_line) = [].
Proof.
  apply (C4_ignored_line_yields_nothing suppressed_line).
  exists (nth 0 IGNORE_API_PATTERNS Eps).
  split; [left; reflexivity | vm_compute; reflexivity].
Defined.

(** The test is made before comments are looked at: a call that only
    stands in a trailing comment suppresses the literal of the line,
    although the line without its comment matches no pattern. *)
Lemma suppression_precedes_comment_stripping :
  let line := u "var x = " ++ quoted (u "错误信息") ++ u "; // Debug.Log" in
  ignored (_remove_comment line) = false /\
  _find_chinese_strings line = [].
Proof. vm_compute. split; reflexivity. Qed.

(** ** Block comments *)

Lemma scan_lines_app (name : str) (l1 l2 : list str) :
  forall st i,
    scan_lines name st i (l1 ++ l2) =
    scan_lines name st i l1 ++
    scan_lines name
      (fold_left (fun s p => fst (scan_line name s (fst p) (snd p)))
                 (combine (seq i (length l1)) l1) st)
      (i + length l1) l2.
Proof.
  induction l1 as [|l l1 IH]; intros st i; simpl.
  - rewrite Nat.add_0_r. reflexivity.
  - destruct (scan_line name st i l) as [st' found] eqn:E. simpl.
    rewrite IH, <- app_assoc, <- Nat.add_succ_comm. reflexivity.
Qed.

Lemma scan_line_closer (name : str) (st : bool) (i : nat) (line : str) :
  contains (u "*/") line = true -> scan_line name st i line = (false, []).
Proof. intros H. unfold scan_line. rewrite H. reflexivity. Qed.

Lemma scan_line_opener (name : str) (st : bool) (i : nat) (line : str) :
  contains (u "/*") line = true -> contains (u "*/") line = false ->
  scan_line name st i line = (true, []).
Proof. intros H1 H2. unfold scan_line. rewrite H1, H2. reflexivity. Qed.

(** C10: in a file, a line with the opener and no closer contributes no
    record and the lines after it are scanned inside the comment; a
    line with the closer contributes no record and the lines after it
    are scanned outside the comment.  The state before the line does
    not matter. *)
Theorem C10_block_comment_lines
        (name : str) (st : bool) (i : nat) (before after : list str)
        (line : str) :
  (contains (u "/*") line = true -> contains (u "*/") line = false ->
   (forall st' j, scan_line name st' j line = (true, [])) /\
   scan_lines name st i (before ++ line :: after) =
   scan_lines name st i before ++
   scan_lines name true (S (i + length before)) after) /\
  (contains (u "*/") line = true ->
   (forall st' j, scan_line name st' j line = (false, [])) /\
   scan_lines name st i (before ++ line :: after) =
   scan_lines name st i before ++
   scan_lines name false (S (i + length before)) after).
Proof.
  split.
  - intros H1 H2.
    split; [intros; apply scan_line_opener; assumption|].
    rewrite scan_lines_app. f_equal.
    cbn [scan_lines]. rewrite scan_line_opener by assumption.
    reflexivity.
  - intros H.
    split; [intros; apply scan_line_closer; assumption|].
    rewrite scan_lines_app. f_equal.
    cbn [scan_lines]. rewrite scan_line_closer by assumption.
    reflexivity.
Qed.

Lemma C10_block_comment_lines_witness :
  (scan_lines (u "a.cs") false 1
     ([u "int a;"] ++ opener_line :: [u "s = " ++ quoted (u "文本")]) =
   scan_lines (u "a.cs") false 1 [u "int a;"] ++
   scan_lines (u "a.cs") true 3 [u "s = " ++ quoted (u "文本")]) /\
  (scan_lines (u "a.cs") true 1
     ([u "int a;"] ++ closer_line :: [u "s = " ++ quoted (u "文本")]) =
   scan_lines (u "a.cs") true 1 [u "int a;"] ++
   scan_lines (u "a.cs") false 3 [u "s = " ++ quoted (u "文本")]).
Proof.
  split.
  - apply (C10_block_comment_lines (u "a.cs") false 1 [u "int a;"]
             [u "s = " ++ quoted (u "文本")] opener_line);
      vm_compute; reflexivity.
  - apply (C10_block_comment_lines (u "a.cs") true 1 [u "int a;"]
             [u "s = " ++ quoted (u "文本")] closer_line);
      vm_compute; reflexivity.
Defined.

(** ** Unreadable files *)

Lemma extract_from_file_returns (f : source_file) :
  exists results, extract_from_file f = Returned results.
Proof.
  destruct f as [name [content|e]]; unfold extract_from_file; simpl;
    eexists; reflexivity.
Qed.

Lemma extract_from_files_returns (files : list source_file) :
  exists results, extract_from_files files = Returned results.
Proof.
  induction files as [|f files [rest IH]]; cbn [extract_from_files].
  - eexists; reflexivity.
  - destruct (negb (mem (suffix (file_name f)) CODE_EXTENSIONS)).
    + exists rest; assumption.
    + destruct (extract_from_file_returns f) as [r ->]. cbn [bind].
      rewrite IH. cbn [bind]. eexists; reflexivity.
Qed.

Lemma extract_from_directory_returns :
  forall d : folder, exists results, extract_from_directory d = Returned results.
Proof.
  fix IH 1. intros [name files dirs]. cbn [extract_from_directory].
  destruct (extract_from_files_returns files) as [here ->].
  cbn [bind].
  match goal with
  | |- context [bind (?w dirs)] =>
      assert (W : exists below, w dirs = Returned below)
  end.
  { induction dirs as [|d' ds [more IHds]].
    - eexists; reflexivity.
    - cbn -[mem IGNORE_FOLDERS].
      destruct (mem (folder_name d') IGNORE_FOLDERS).
      + exists more. exact IHds.
      + destruct (IH d') as [r ->]. cbn [bind].
        rewrite IHds. cbn [bind]. eexists; reflexivity. }
  destruct W as [below ->]. cbn [bind]. eexists; reflexivity.
Qed.

Lemma extract_from_files_skip (f : source_file) (before after : list source_file) :
  extract_from_file f = Returned [] ->
  extract_from_files (before ++ f :: after) =
  extract_from_files (before ++ after).
Proof.
  intros H. induction before as [|g before IH];
    cbn [app extract_from_files].
  - destruct (negb (mem (suffix (file_name f)) CODE_EXTENSIONS));
      [reflexivity|].
    rewrite H. cbn [bind app].
    destruct (extract_from_files after); reflexivity.
  - rewrite IH. reflexivity.
Qed.

(** C9: a file whose read raises gives no record and no exception; the
    files around it are scanned as if it were not there, and the scan
    of a directory tree always returns. *)
Theorem C9_unreadable_file_is_skipped (name e : str) :
  extract_from_file (mkFile name (Raised e)) = Returned [] /\
  (forall before after,
      extract_from_files (before ++ mkFile name (Raised e) :: after) =
      extract_from_files (before ++ after)) /\
  (forall dir before after dirs,
      extract_from_directory
        (Folder dir (before ++ mkFile name (Raised e) :: after) dirs) =
      extract_from_directory (Folder dir (before ++ after) dirs)) /\
  (forall d, exists results, extract_from_directory d = Returned results).
Proof.
  assert (H : extract_from_file (mkFile name (Raised e)) = Returned [])
    by reflexivity.
  repeat split.
  - intros. apply extract_from_files_skip, H.
  - intros. cbn [extract_from_directory].
    rewrite (extract_from_files_skip _ before after H). reflexivity.
  - apply extract_from_directory_returns.
Qed.

(** ** Deduplication *)

Section DictFacts.
Variable V : Type.

Lemma has_mem (d : Dict.t V) (k : str) : Dict.has d k = mem k (map fst d).
Proof.
  unfold Dict.has. induction d as [|[k' v] d IH]; simpl; [reflexivity|].
  destruct (str_eqb k k'); [reflexivity | exact IH].
Qed.

Lemma set_absent (d : Dict.t V) (k : str) (v : V) :
  Dict.has d k = false -> Dict.set d k v = d ++ [(k, v)].
Proof.
  unfold Dict.has. induction d as [|[k' v'] d IH]; simpl; [reflexivity|].
  destruct (str_eqb k k'); [discriminate|].
  intros H. rewrite IH by exact H. reflexivity.
Qed.

End DictFacts.

Lemma unique_from (strings : list ChineseString) :
  forall d : Dict.t ChineseString,
    fold_left unique_step strings d =
    d ++ map entry (first_occurrences (map fst d) strings).
Proof.
  induction strings as [|s rest IH]; intros d; simpl.
  - rewrite app_nil_r. reflexivity.
  - unfold unique_step at 2. rewrite has_mem.
    destruct (mem (value s) (map fst d)) eqn:E; simpl.
    + apply IH.
    + rewrite set_absent by (rewrite has_mem; exact E).
      rewrite IH, map_app, <- app_assoc. reflexivity.
Qed.

Lemma unique_first_occurrences (strings : list ChineseString) :
  unique strings = map entry (first_occurrences [] strings).
Proof. unfold unique. rewrite unique_from. reflexivity. Qed.

Lemma first_occurrences_unseen (strings : list ChineseString) :
  forall seen s, In s (first_occurrences seen strings) -> ~ In (value s) seen.
Proof.
  induction strings as [|x rest IH]; intros seen s; simpl; [tauto|].
  destruct (mem (value x) seen) eqn:E.
  - apply IH.
  - intros [<- | H].
    + apply mem_not_In, E.
    + intros K. apply (IH _ _ H). apply in_or_app. left; exact K.
Qed.

Lemma first_occurrences_fresh (x : ChineseString) (rest : list ChineseString)
      (seen : list str) (s : ChineseString) :
  In s (first_occurrences (seen ++ [value x]) rest) -> value s <> value x.
Proof.
  intros H E. apply (first_occurrences_unseen _ _ _ H).
  apply in_or_app. right. left. symmetry; exact E.
Qed.

Lemma first_occurrences_values (strings : list ChineseString) :
  forall seen v,
    In v (map value (first_occurrences seen strings)) <->
    In v (map value strings) /\ ~ In v seen.
Proof.
  induction strings as [|x rest IH]; intros seen v; simpl; [tauto|].
  destruct (mem (value x) seen) eqn:E.
  - rewrite IH. apply mem_In in E.
    split; [tauto|]. intros [[<- | H] K]; [contradiction | tauto].
  - apply mem_not_In in E. simpl. rewrite IH, in_app_iff. simpl.
    destruct (str_eq_dec (value x) v) as [<- | N]; tauto.
Qed.

Lemma first_occurrences_NoDup (strings : list ChineseString) :
  forall seen, NoDup (map value (first_occurrences seen strings)).
Proof.
  induction strings as [|x rest IH]; intros seen; simpl; [constructor|].
  destruct (mem (value x) seen); [apply IH|]. simpl. constructor.
  - rewrite in_map_iff. intros [s [E H]].
    exact (first_occurrences_fresh _ _ _ _ H E).
  - apply IH.
Qed.

Lemma first_occurrences_find (strings : list ChineseString) :
  forall seen s,
    In s (first_occurrences seen strings) ->
    find (fun x => str_eqb (value x) (value s)) strings = Some s.
Proof.
  induction strings as [|x rest IH]; intros seen s; simpl; [tauto|].
  destruct (mem (value x) seen) eqn:E.
  - intros H.
    assert (N : str_eqb (value x) (value s) = false).
    { apply str_eqb_neq. intros K. apply mem_In in E. rewrite K in E.
      exact (first_occurrences_unseen _ _ _ H E). }
    rewrite N. exact (IH _ _ H).
  - intros [<- | H].
    + rewrite str_eqb_refl. reflexivity.
    + assert (N : str_eqb (value x) (value s) = false).
      { apply str_eqb_neq. intros K. symmetry in K.
        exact (first_occurrences_fresh _ _ _ _ H K). }
      rewrite N. exact (IH _ _ H).
Qed.

Lemma StronglySorted_map_S (l : list nat) :
  StronglySorted lt l -> StronglySorted lt (map S l).
Proof.
  induction 1 as [|a l _ IH F]; simpl; constructor; [exact IH|].
  rewrite Forall_map. eapply Forall_impl; [|exact F].
  intros b; simpl; lia.
Qed.

Lemma first_occurrences_sorted (strings : list ChineseString) :
  forall seen,
    StronglySorted lt
      (map (fun s => first_index (value s) strings)
           (first_occurrences seen strings)).
Proof.
  induction strings as [|x rest IH]; intros seen; [constructor|].
  cbn [first_occurrences].
  assert (Shift : forall seen',
             (forall s, In s (first_occurrences seen' rest) ->
                        value s <> value x) ->
             map (fun s => first_index (value s) (x :: rest))
                 (first_occurrences seen' rest) =
             map S (map (fun s => first_index (value s) rest)
                        (first_occurrences seen' rest))).
  { intros seen' D. rewrite map_map. apply map_ext_in. intros s H. simpl.
    assert (N : str_eqb (value x) (value s) = false).
    { apply str_eqb_neq. intros K. symmetry in K. exact (D s H K). }
    rewrite N. reflexivity. }
  destruct (mem (value x) seen) eqn:E.
  - rewrite Shift; [apply StronglySorted_map_S, IH|].
    intros s H K. apply mem_In in E. rewrite <- K in E.
    exact (first_occurrences_unseen _ _ _ H E).
  - cbn [map].
    rewrite Shift
      by (intros s H; exact (first_occurrences_fresh _ _ _ _ H)).
    simpl. rewrite str_eqb_refl. constructor.
    + apply StronglySorted_map_S, IH.
    + rewrite Forall_map. apply Forall_forall. intros; lia.
Qed.

Section Generate.
Variable upper : str -> str.
Variable isdecimal : char -> bool.
Variable World : Type.
Variable _call_api : World -> str -> str -> outcome (option str) * World.

Lemma make_rows_fields (context : str) (items : list (str * ChineseString)) :
  forall tr,
    map (fun r => (row_value r, row_pos r))
        (fst (make_rows upper isdecimal _call_api tr context items)) =
    map (fun it => (fst it, pos (snd it))) items.
Proof.
  induction items as [|[v cs] rest IH]; intros tr; simpl; [reflexivity|].
  destruct (row_for upper isdecimal _call_api tr context v) as [key tr1].
  specialize (IH tr1).
  destruct (make_rows upper isdecimal _call_api tr1 context rest)
    as [rows tr2].
  simpl in *. rewrite IH. reflexivity.
Qed.

(** C1: the table written for a scope has one row for each distinct
    value of the extracted records and no other row; the position of a
    row is the position of the first record with its value; the rows
    stand in the order in which their values first occur.  Nothing is
    written when there is no record. *)
Theorem C1_generate_rows (tr : option (translator World))
        (strings : list ChineseString) (context : str) :
  match fst (generate upper isdecimal _call_api tr strings context) with
  | None => strings = []
  | Some rows =>
      NoDup (map row_value rows) /\
      (forall v, In v (map row_value rows) <-> In v (map value strings)) /\
      (forall r, In r rows ->
                 first_pos (row_value r) strings = Some (row_pos r)) /\
      StronglySorted lt
        (map (fun r => first_index (row_value r) strings) rows)
  end.
Proof.
  unfold generate. destruct strings as [|s0 rest]; [reflexivity|].
  set (strings := s0 :: rest).
  pose proof (make_rows_fields context (Dict.items (unique strings)) tr) as F.
  destruct (make_rows upper isdecimal _call_api tr context
                      (Dict.items (unique strings))) as [rows tr'].
  cbn [fst] in *. unfold Dict.items in F.
  rewrite unique_first_occurrences, map_map in F. cbn [entry fst snd] in F.
  assert (Fv : map row_value rows =
               map value (first_occurrences [] strings)).
  { apply (f_equal (map fst)) in F. rewrite !map_map in F. exact F. }
  repeat split.
  - rewrite Fv. apply first_occurrences_NoDup.
  - rewrite Fv. intros H. apply first_occurrences_values in H. tauto.
  - rewrite Fv. intros H. apply first_occurrences_values. tauto.
  - intros r H.
    assert (K : In (row_value r, row_pos r)
                   (map (fun s => (value s, pos s))
                        (first_occurrences [] strings))).
    { rewrite <- F. apply (in_map (fun r => (row_value r, row_pos r))), H. }
    apply in_map_iff in K. destruct K as [s [E K]].
    inversion E as [[Ev Ep]]. unfold first_pos.
    rewrite (first_occurrences_find _ _ _ K). reflexivity.
  - rewrite <- (map_map row_value (fun v => first_index v strings)), Fv,
      map_map.
    apply first_occurrences_sorted.
Qed.

End Generate.

(** ** The matcher *)

Lemma many_spec {A} (p : char -> bool) (k : str -> option A) (t : str) (a : A) :
  many p k t = Some a ->
  exists m t', t = m ++ t' /\ forallb p m = true /\ k t' = Some a.
Proof.
  induction t as [|x t IH]; simpl.
  - intros H. exists [], []. auto.
  - destruct (p x) eqn:P.
    + destruct (many p k t) as [a'|] eqn:M; simpl.
      * intros E. destruct (IH E) as [m [t' [-> [F K]]]].
        exists (x :: m), t'. simpl. rewrite P, F. auto.
      * intros H. exists [], (x :: t). auto.
    + intros H. exists [], (x :: t). auto.
Qed.

(** The continuation of a match is run on what follows the characters
    the pattern has consumed. *)
Lemma run_suffix {A} (r : regex) :
  forall (s : str) (caps : list str) (k : str -> list str -> option A) (a : A),
    run r s caps k = Some a ->
    exists consumed rest caps',
      s = consumed ++ rest /\ k rest caps' = Some a.
Proof.
  induction r as [|c|p|r1 IH1 r2 IH2|r1 IH1 r2 IH2|p|r1 IH1];
    intros s caps k a; cbn [run].
  - intros H. exists [], s, caps. auto.
  - destruct s as [|x s]; [discriminate|].
    destruct (char_eqb x c); [|discriminate].
    intros H. exists [x], s, caps. auto.
  - destruct s as [|x s]; [discriminate|].
    destruct (p x); [|discriminate].
    intros H. exists [x], s, caps. auto.
  - intros H. apply IH1 in H. destruct H as [c1 [s1 [caps1 [-> H]]]].
    apply IH2 in H. destruct H as [c2 [s2 [caps2 [-> H]]]].
    exists (c1 ++ c2), s2, caps2. rewrite app_assoc. auto.
  - destruct (run r1 s caps k) as [a'|] eqn:E; simpl.
    + intros K. inversion K; subst. exact (IH1 _ _ _ _ E).
    + apply IH2.
  - intros H. apply many_spec in H. destruct H as [m [t' [-> [_ H]]]].
    exists m, t', caps. auto.
  - intros H. apply IH1 in H. destruct H as [c1 [s1 [caps1 [-> H]]]].
    eexists c1, s1, _. split; [reflexivity | exact H].
Qed.

Lemma match_at_suffix (r : regex) (s rest : str) (caps : list str) :
  match_at r s = Some (rest, caps) -> exists consumed, s = consumed ++ rest.
Proof.
  unfold match_at. intros H. apply run_suffix in H.
  destruct H as [consumed [rest' [caps' [-> H]]]].
  inversion H; subst. exists consumed. reflexivity.
Qed.

(** Every text reported by [findall] comes from a match of the pattern
    at some place of the input. *)
Lemma findall_from_In (r : regex) (m : str) (fuel : nat) :
  forall s,
    In m (findall_from fuel r s) ->
    exists before s' rest caps,
      s = before ++ s' /\ match_at r s' = Some (rest, caps) /\
      m = reported s' rest caps.
Proof.
  induction fuel as [|fuel IH]; intros s; cbn [findall_from];
    [intros []|].
  assert (Tail : In m match s with
                      | [] => []
                      | _ :: s' => findall_from fuel r s'
                      end ->
                 exists before s' rest caps,
                   s = before ++ s' /\ match_at r s' = Some (rest, caps) /\
                   m = reported s' rest caps).
  { destruct s as [|c s1]; [intros []|]. intros H.
    destruct (IH _ H) as [b [s' [rest [caps [-> K]]]]].
    exists (c :: b), s', rest, caps. auto. }
  destruct (match_at r s) as [[rest caps]|] eqn:E; [|exact Tail].
  intros [<- | H].
  - exists [], s, rest, caps. auto.
  - destruct (length rest <? length s); [|exact (Tail H)].
    destruct (match_at_suffix _ _ E) as [consumed ->].
    destruct (IH _ H) as [b [s' [rest' [caps' [-> K]]]]].
    exists (consumed ++ b), s', rest', caps'. rewrite app_assoc. auto.
Qed.

Lemma findall_In (r : regex) (m s : str) :
  In m (findall r s) ->
  exists before s' rest caps,
    s = before ++ s' /\ match_at r s' = Some (rest, caps) /\
    m = reported s' rest caps.
Proof. apply findall_from_In. Qed.

Lemma firstn_consumed (m t : str) :
  firstn (length (m ++ t) - length t) (m ++ t) = m.
Proof.
  rewrite length_app, Nat.add_sub, firstn_app, Nat.sub_diag, firstn_all.
  simpl. apply app_nil_r.
Qed.

Lemma not_dquote_forallb (m : str) :
  forallb (not_char dquote) m = true -> ~ In dquote m.
Proof.
  rewrite forallb_forall. intros F H. specialize (F _ H).
  unfold not_char, char_eqb in F. rewrite N.eqb_refl in F. discriminate.
Qed.

(** ** Delimiting of the literals *)

Lemma match_plain (s rest : str) (caps : list str) :
  match_at plain_pattern s = Some (rest, caps) ->
  exists m, s = dquote :: m ++ dquote :: rest /\ caps = [m] /\
            ~ In dquote m.
Proof.
  unfold match_at, plain_pattern. cbn [cats run].
  destruct s as [|x s1]; [discriminate|].
  destruct (char_eqb x dquote) eqn:X; [|discriminate].
  apply char_eqb_eq in X. subst x.
  intros H. apply many_spec in H. destruct H as [m [t' [-> [F H]]]].
  destruct t' as [|y t']; [discriminate|].
  destruct (char_eqb y dquote) eqn:Y; [|discriminate].
  apply char_eqb_eq in Y. subst y.
  rewrite firstn_consumed in H. inversion H; subst.
  exists m. auto using not_dquote_forallb.
Qed.

Lemma match_interpolated (s rest : str) (caps : list str) :
  match_at interpolated_pattern s = Some (rest, caps) ->
  exists m, s = 36%N :: dquote :: m ++ dquote :: rest /\ caps = [m] /\
            ~ In dquote m.
Proof.
  unfold match_at, interpolated_pattern. cbn [cats run].
  destruct s as [|d s0]; [discriminate|].
  destruct (char_eqb d 36%N) eqn:D; [|discriminate].
  apply char_eqb_eq in D. subst d.
  destruct s0 as [|x s1]; [discriminate|].
  destruct (char_eqb x dquote) eqn:X; [|discriminate].
  apply char_eqb_eq in X. subst x.
  intros H. apply many_spec in H. destruct H as [m [t' [-> [F H]]]].
  destruct t' as [|y t']; [discriminate|].
  destruct (char_eqb y dquote) eqn:Y; [|discriminate].
  apply char_eqb_eq in Y. subst y.
  rewrite firstn_consumed in H. inversion H; subst.
  exists m. auto using not_dquote_forallb.
Qed.

Lemma plain_step_In (m : str) (ms : list str) :
  forall results,
    In m (fold_left plain_step ms results) ->
    In m results \/ (In m ms /\ _has_chinese m = true).
Proof.
  induction ms as [|x ms IH]; intros results; simpl; [auto|].
  intros H. apply IH in H. destruct H as [H | [H C]]; [|tauto].
  unfold plain_step in H.
  destruct (_has_chinese x) eqn:C; simpl in H; [|auto].
  destruct (mem x results); simpl in H; [auto|].
  apply in_app_or in H. destruct H as [H | [<- | []]]; auto.
Qed.

Lemma candidates_from_passes (line m : str) :
  In m (_find_chinese_strings line) ->
  In m (findall interpolated_pattern line) \/
  In m (findall plain_pattern line).
Proof.
  unfold _find_chinese_strings. destruct (ignored line); [intros []|].
  intros H. apply plain_step_In in H. destruct H as [H | [H _]]; [|auto].
  left. unfold interpolated_kept in H. apply filter_In in H. tauto.
Qed.

(** C6, as the code has it: the content of an interpolated literal runs
    from the dollar sign and double quote to the next double quote, and
    the content of a plain literal stands between two double quotes
    with none in between; whether a backslash precedes a quote plays no
    part, so an escaped quote ends the literal.  Every candidate comes
    from one of the two passes. *)
Theorem C6_literal_ends_at_next_quote (line m : str) :
  (In m (findall interpolated_pattern line) ->
   ~ In dquote m /\
   exists before after,
     line = before ++ 36%N :: dquote :: m ++ dquote :: after) /\
  (In m (findall plain_pattern line) ->
   ~ In dquote m /\
   exists before after, line = before ++ dquote :: m ++ dquote :: after) /\
  (In m (_find_chinese_strings line) ->
   In m (findall interpolated_pattern line) \/
   In m (findall plain_pattern line)).
Proof.
  repeat split.
  - apply findall_In in H.
    destruct H as [b [s' [rest [caps [_ [M ->]]]]]].
    apply match_interpolated in M. destruct M as [m [_ [-> N]]]. exact N.
  - apply findall_In in H.
    destruct H as [b [s' [rest [caps [-> [M ->]]]]]].
    apply match_interpolated in M. destruct M as [m [-> [-> N]]].
    exists b, rest. reflexivity.
  - apply findall_In in H.
    destruct H as [b [s' [rest [caps [_ [M ->]]]]]].
    apply match_plain in M. destruct M as [m [_ [-> N]]]. exact N.
  - apply findall_In in H.
    destruct H as [b [s' [rest [caps [-> [M ->]]]]]].
    apply match_plain in M. destruct M as [m [-> [-> N]]].
    exists b, rest. reflexivity.
  - apply candidates_from_passes.
Qed.

(** ** Candidates of a line *)

Lemma plain_fold_shape (ms : list str) :
  forall results,
  exists added,
    fold_left plain_step ms results = results ++ added /\
    NoDup added /\
    (forall t, In t added <->
               ~ In t results /\ In t ms /\ _has_chinese t = true).
Proof.
  induction ms as [|x ms IH]; intros results; cbn [fold_left].
  - exists []. rewrite app_nil_r. split; [reflexivity|].
    split; [constructor|]. intros t; simpl; tauto.
  - unfold plain_step at 2.
    destruct (_has_chinese x && negb (mem x results)) eqn:E.
    + apply andb_true_iff in E. destruct E as [C M].
      apply negb_true_iff, mem_not_In in M.
      destruct (IH (results ++ [x])) as [added [F [D I]]].
      exists (x :: added). rewrite F, <- app_assoc. split; [reflexivity|].
      split.
      * constructor; [|exact D]. intros K. apply I in K.
        destruct K as [K _]. apply K, in_or_app. right; left; reflexivity.
      * intros t. simpl. rewrite I, in_app_iff. simpl.
        destruct (str_eq_dec x t) as [<- | N]; tauto.
    + destruct (IH results) as [added [F [D I]]].
      exists added. split; [exact F|]. split; [exact D|].
      intros t. rewrite I. simpl.
      split; [tauto|]. intros [R [[<- | K] C]]; [|tauto].
      rewrite C in E. simpl in E. apply negb_false_iff, mem_In in E.
      contradiction.
Qed.

Lemma interpolated_kept_In (line t : str) :
  In t (interpolated_kept line) <->
  In t (findall interpolated_pattern line) /\
  (_has_chinese t = true \/ _has_params t = true).
Proof.
  unfold interpolated_kept. rewrite filter_In, orb_true_iff. tauto.
Qed.

(** C5, as the code has it, for a line that no ignore pattern
    suppresses: a text is a candidate exactly when the interpolated
    pass finds it with a script character or a placeholder, or the
    plain pass finds it with a script character; a candidate without
    script character comes from the interpolated pass; the plain pass
    never records again a text the interpolated pass has kept, and
    records any other text at most once. *)
Theorem C5_candidates_of_a_line (line : str) :
  ignored line = false ->
  (forall t,
      In t (_find_chinese_strings line) <->
      (In t (findall interpolated_pattern line) /\
       (_has_chinese t = true \/ _has_params t = true)) \/
      (In t (findall plain_pattern line) /\ _has_chinese t = true)) /\
  (forall t,
      _has_chinese t = false -> In t (_find_chinese_strings line) ->
      In t (findall interpolated_pattern line) /\ _has_params t = true) /\
  (forall t,
      In t (interpolated_kept line) ->
      count_occ str_eq_dec (_find_chinese_strings line) t =
      count_occ str_eq_dec (interpolated_kept line) t) /\
  (forall t,
      ~ In t (interpolated_kept line) ->
      count_occ str_eq_dec (_find_chinese_strings line) t <= 1).
Proof.
  intros G. unfold _find_chinese_strings. rewrite G.
  destruct (plain_fold_shape (findall plain_pattern line)
                             (interpolated_kept line)) as [added [-> [D I]]].
  assert (Main : forall t,
             In t (interpolated_kept line ++ added) <->
             (In t (findall interpolated_pattern line) /\
              (_has_chinese t = true \/ _has_params t = true)) \/
             (In t (findall plain_pattern line) /\ _has_chinese t = true)).
  { intros t. rewrite in_app_iff, I, <- interpolated_kept_In.
    destruct (in_dec str_eq_dec t (interpolated_kept line)); tauto. }
  repeat split.
  - apply Main.
  - apply Main.
  - apply Main in H0. destruct H0 as [[K _] | [_ K]]; [exact K | congruence].
  - apply Main in H0.
    destruct H0 as [[_ [K | K]] | [_ K]]; [congruence | exact K | congruence].
  - intros t K. rewrite count_occ_app.
    assert (N : ~ In t added) by (rewrite I; tauto).
    apply (count_occ_not_In str_eq_dec) in N. rewrite N. lia.
  - intros t K. rewrite count_occ_app.
    apply (count_occ_not_In str_eq_dec) in K. rewrite K. simpl.
    apply NoDup_count_occ. exact D.
Qed.

(** ** Keys *)

(** The tokens of [_default_key]: one for each character of the script
    range, the entry of the table or the character itself; the other
    characters give no token. *)
Lemma default_words_map (text : str) :
  default_words text = map (lookup default_word_map) (filter is_chinese text).
Proof.
  induction text as [|c text IH]; simpl; [reflexivity|].
  destruct (is_chinese c); simpl; rewrite IH; reflexivity.
Qed.

(** The tokens of [_local_translate] never lie in the script range. *)
Lemma local_words_translated (text w : str) :
  In w (local_words text) -> still_chinese w = false.
Proof.
  induction text as [|c text IH]; simpl; [tauto|].
  destruct (is_chinese c); [|exact IH].
  destruct (still_chinese (lookup local_word_map c)) eqn:E; [exact IH|].
  intros [<- | H]; [exact E | exact (IH H)].
Qed.

(** C7 (a token still in the script range is dropped) fails for the
    keys made without translator: [_default_key] emits the unmapped
    characters of ["你好"], where [_local_translate], the key generation
    of the translator, drops them and falls back to [BATTLE_TEXT]. *)
Theorem C7_default_key_emits_unmapped :
  _default_key ascii_upper ascii_digit (u "你好") (u "Battle")
  = u "BATTLE_你_好" /\
  _local_translate ascii_upper ascii_digit (u "你好") (u "Battle")
  = u "BATTLE_TEXT".
Proof. vm_compute. split; reflexivity. Qed.

Lemma limit_length (module_name result : str) :
  length module_name < 49 ->
  length module_name + 1 + length (limit module_name result) <= 50.
Proof.
  intros H. unfold limit.
  assert (E : (0 <? 50 - Z.of_nat (length module_name) - 1)%Z = true)
    by (apply Z.ltb_lt; lia).
  rewrite E.
  pose proof (firstn_le_length
                (Z.to_nat (50 - Z.of_nat (length module_name) - 1)) result).
  lia.
Qed.

Lemma startswith_prefix (m x : str) (c : char) :
  startswith (m ++ c :: x) (m ++ [c]) = true.
Proof.
  replace (m ++ c :: x) with ((m ++ [c]) ++ x)
    by (rewrite <- app_assoc; reflexivity).
  apply startswith_self_app.
Qed.

Section KeyFacts.
Variable upper : str -> str.
Variable isdecimal : char -> bool.
Variable World : Type.
Variable _call_api : World -> str -> str -> outcome (option str) * World.

(** Every key of [_default_key] for a scope begins with the upper-cased
    scope name and an underscore. *)
Lemma default_key_prefix (text context : str) :
  nonempty (upper context) = true -> nonempty context = true ->
  startswith (_default_key upper isdecimal text context)
             (upper context ++ u "_") = true.
Proof.
  intros U C. unfold _default_key. rewrite C, U.
  change (u "_") with [underscore].
  change (u "_PARAM_") with (underscore :: u "PARAM_").
  change (u "_TEXT") with (underscore :: u "TEXT").
  destruct (negb (nonempty (strip (sub (index_pattern isdecimal) [] text)))).
  - apply startswith_prefix.
  - destruct (default_words (strip (sub (index_pattern isdecimal) [] text)));
      apply startswith_prefix.
Qed.

(** Without translator the key of a row is the key of [_default_key]:
    the prefix is already there. *)
Lemma row_for_default (text context : str) :
  (nonempty context = true -> nonempty (upper context) = true) ->
  fst (row_for upper isdecimal _call_api None context text) =
  _default_key upper isdecimal text context.
Proof.
  intros U. unfold row_for. cbn [fst].
  destruct (nonempty context) eqn:C; [|reflexivity].
  rewrite default_key_prefix by auto. reflexivity.
Qed.

End KeyFacts.

(** ** The claims on concrete lines *)

Lemma C5_candidates_of_a_line_witness :
  _find_chinese_strings mixed_line = [u "{count}/{max}"; u "个道具"] /\
  forall t,
    In t (_find_chinese_strings mixed_line) <->
    (In t (findall interpolated_pattern mixed_line) /\
     (_has_chinese t = true \/ _has_params t = true)) \/
    (In t (findall plain_pattern mixed_line) /\ _has_chinese t = true).
Proof.
  split; [vm_compute; reflexivity|].
  assert (G : ignored mixed_line = false) by (vm_compute; reflexivity).
  exact (proj1 (C5_candidates_of_a_line mixed_line G)).
Defined.

(** C5 as it is written fails on a line with the same interpolated
    literal twice: both passes find its text and it is recorded
    twice. *)
Lemma C5_counterexample :
  ignored repeated_line = false /\
  In (u "{x}级") (findall interpolated_pattern repeated_line) /\
  In (u "{x}级") (findall plain_pattern repeated_line) /\
  _find_chinese_strings repeated_line = [u "{x}级"; u "{x}级"] /\
  count_occ str_eq_dec (_find_chinese_strings repeated_line) (u "{x}级") = 2.
Proof.
  split; [vm_compute; reflexivity|].
  split; [vm_compute; left; reflexivity|].
  split; [vm_compute; left; reflexivity|].
  split; vm_compute; reflexivity.
Qed.

Lemma C6_literal_ends_at_next_quote_witness :
  (~ In dquote (u "{count}/{max}") /\
   exists before after,
     mixed_line =
     before ++ 36%N :: dquote :: u "{count}/{max}" ++ dquote :: after) /\
  (~ In dquote (u "个道具") /\
   exists before after,
     mixed_line = before ++ dquote :: u "个道具" ++ dquote :: after).
Proof.
  split.
  - refine (proj1 (C6_literal_ends_at_next_quote mixed_line
                     (u "{count}/{max}")) _).
    vm_compute. left; reflexivity.
  - refine (proj1 (proj2 (C6_literal_ends_at_next_quote mixed_line
                            (u "个道具"))) _).
    vm_compute. right; left; reflexivity.
Defined.

(** C6 as it is written fails on a literal with an escaped quote: the
    candidate stops at the backslash, and the text up to the closing
    quote is not extracted. *)
Lemma C6_counterexample :
  _find_chinese_strings escaped_line = [u "他说\"] /\
  ~ In (u "他说\" ++ [dquote] ++ u "你好\" ++ [dquote])
       (_find_chinese_strings escaped_line).
Proof.
  split; [vm_compute; reflexivity|].
  vm_compute. intros [H | []]. discriminate H.
Qed.

(** C8 as it is written fails for a scope name of 49 characters or
    more: nothing is truncated and the key is longer than 50. *)
Lemma C8_counterexample :
  length long_scope = 50 /\
  _default_key ascii_upper ascii_digit (u "你好") long_scope
  = ascii_upper long_scope ++ u "_你_好" /\
  length (_default_key ascii_upper ascii_digit (u "你好") long_scope) = 54.
Proof. vm_compute. repeat split; reflexivity. Qed.

(** The fallback keys are not truncated either. *)
Lemma fallback_key_not_truncated :
  _default_key ascii_upper ascii_digit (u "{0}/{1}") long_scope
  = ascii_upper long_scope ++ u "_TEXT" /\
  _default_key ascii_upper ascii_digit (u "{0}{1}") long_scope
  = ascii_upper long_scope ++ u "_PARAM_2".
Proof. vm_compute. split; reflexivity. Qed.

(** * Further properties of the code *)

(** ** Searching and listing matches *)

Lemma search_iff (r : regex) (s : str) :
  search r s = true <->
  exists before s', s = before ++ s' /\ match_at r s' <> None.
Proof.
  induction s as [|c s IH]; cbn [search].
  - destruct (match_at r []) eqn:E.
    + split; [|reflexivity]. intros _. exists [], []. rewrite E.
      split; [reflexivity | discriminate].
    + split; [discriminate|]. intros [b [s' [H N]]].
      symmetry in H. apply app_eq_nil in H. destruct H as [_ ->].
      contradiction.
  - destruct (match_at r (c :: s)) eqn:E.
    + split; [|reflexivity]. intros _. exists [], (c :: s). rewrite E.
      split; [reflexivity | discriminate].
    + rewrite IH. split.
      * intros [b [s' [-> N]]]. exists (c :: b), s'. auto.
      * intros [b [s' [H N]]]. destruct b as [|x b].
        -- simpl in H. subst s'. contradiction.
        -- inversion H; subst. exists b, s'. auto.
Qed.

Lemma search_false_tail (r : regex) (c : char) (s : str) :
  search r (c :: s) = false ->
  match_at r (c :: s) = None /\ search r s = false.
Proof.
  cbn [search]. destruct (match_at r (c :: s)); [discriminate | auto].
Qed.

Lemma findall_from_none (r : regex) (fuel : nat) :
  forall s, search r s = false -> findall_from fuel r s = [].
Proof.
  induction fuel as [|fuel IH]; intros s H; [reflexivity|].
  cbn [findall_from]. destruct s as [|c s].
  - cbn [search] in H. destruct (match_at r []); [discriminate|reflexivity].
  - apply search_false_tail in H. destruct H as [-> H]. apply IH, H.
Qed.

(** The fuel of [findall] plays no part once it exceeds the length. *)
Lemma findall_from_fuel (r : regex) (f1 : nat) :
  forall f2 s, length s < f1 -> length s < f2 ->
               findall_from f1 r s = findall_from f2 r s.
Proof.
  induction f1 as [|f1 IH]; intros f2 s H1 H2; [lia|].
  destruct f2 as [|f2]; [lia|]. cbn [findall_from].
  assert (T : match s with
              | [] => []
              | _ :: s' => findall_from f1 r s'
              end = match s with
                    | [] => []
                    | _ :: s' => findall_from f2 r s'
                    end).
  { destruct s as [|c s']; [reflexivity|]. simpl in *. apply IH; lia. }
  destruct (match_at r s) as [[rest caps]|]; [|exact T].
  f_equal. destruct (length rest <? length s) eqn:L; [|exact T].
  apply Nat.ltb_lt in L. apply IH; lia.
Qed.

Lemma findall_from_S (r : regex) (fuel : nat) (s : str) :
  findall_from (S fuel) r s =
  match match_at r s with
  | Some (rest, caps) =>
      reported s rest caps ::
      (if length rest <? length s then findall_from fuel r rest
       else match s with
            | [] => []
            | _ :: s' => findall_from fuel r s'
            end)
  | None =>
      match s with
      | [] => []
      | _ :: s' => findall_from fuel r s'
      end
  end.
Proof. reflexivity. Qed.

Lemma findall_skip (r : regex) (c : char) (s : str) :
  match_at r (c :: s) = None -> findall r (c :: s) = findall r s.
Proof.
  intros H. unfold findall. rewrite findall_from_S, H. reflexivity.
Qed.

Lemma findall_match (r : regex) (s rest : str) (caps : list str) :
  match_at r s = Some (rest, caps) -> length rest < length s ->
  findall r s = reported s rest caps :: findall r rest.
Proof.
  intros H L. unfold findall. rewrite findall_from_S, H.
  apply Nat.ltb_lt in L. rewrite L. apply Nat.ltb_lt in L.
  f_equal. apply findall_from_fuel; lia.
Qed.

(** A greedy repetition followed by a character outside the class takes
    the whole run. *)
Lemma many_greedy {A} (p : char -> bool) (k : str -> option A) (m t : str)
      (a : A) :
  forallb p m = true ->
  match t with [] => True | y :: _ => p y = false end ->
  k t = Some a -> many p k (m ++ t) = Some a.
Proof.
  intros F T K. induction m as [|x m IH].
  - destruct t as [|y t]; cbn [app many]; [exact K|]. rewrite T. exact K.
  - cbn [forallb] in F. apply andb_true_iff in F. destruct F as [P F].
    cbn [app many]. rewrite P, (IH F). reflexivity.
Qed.

Lemma first_split (c : char) (s : str) :
  In c s -> exists a b, s = a ++ c :: b /\ ~ In c a.
Proof.
  induction s as [|x s IH]; [intros []|].
  destruct (N.eq_dec x c) as [-> | N].
  - intros _. exists [], s. auto.
  - intros [E | H]; [contradiction|].
    destruct (IH H) as [a [b [-> K]]]. exists (x :: a), b.
    split; [reflexivity|]. intros [E | E]; auto.
Qed.

Lemma first_split_unique (c : char) (a a' b b' : str) :
  ~ In c a -> ~ In c a' -> a ++ c :: b = a' ++ c :: b' -> a = a' /\ b = b'.
Proof.
  revert a'. induction a as [|x a IH]; intros [|y a'] Ha Ha' E; simpl in *.
  - inversion E; auto.
  - inversion E; subst. tauto.
  - inversion E; subst. tauto.
  - inversion E; subst. destruct (IH a') as [-> ->]; auto.
Qed.

Lemma not_char_forallb (c : char) (m : str) :
  forallb (not_char c) m = true <-> ~ In c m.
Proof.
  induction m as [|x m IH]; simpl; [tauto|].
  rewrite andb_true_iff, IH. unfold not_char.
  rewrite negb_true_iff. unfold char_eqb. rewrite N.eqb_neq. tauto.
Qed.

(** ** Placeholders *)

Lemma match_param (s rest : str) (caps : list str) :
  match_at param_pattern s = Some (rest, caps) ->
  exists body, s = lbrace :: body ++ rbrace :: rest /\ caps = [] /\
               body <> [] /\ ~ In rbrace body.
Proof.
  unfold match_at, param_pattern, Many1. cbn [run].
  destruct s as [|x s1]; [discriminate|].
  destruct (char_eqb x lbrace) eqn:X; [|discriminate].
  apply char_eqb_eq in X. subst x.
  destruct s1 as [|y s2]; [discriminate|].
  destruct (not_char rbrace y) eqn:Y; [|discriminate].
  intros H. apply many_spec in H. destruct H as [m [t' [-> [F H]]]].
  destruct t' as [|z t']; [discriminate|].
  destruct (char_eqb z rbrace) eqn:Z; [|discriminate].
  apply char_eqb_eq in Z. subst z. inversion H; subst.
  exists (y :: m). repeat split; try discriminate.
  apply not_char_forallb. simpl. rewrite Y, F. reflexivity.
Qed.

Lemma match_param_some (body rest : str) :
  body <> [] -> ~ In rbrace body ->
  match_at param_pattern (lbrace :: body ++ rbrace :: rest) = Some (rest, []).
Proof.
  intros N F. apply not_char_forallb in F.
  destruct body as [|y m]; [contradiction|].
  simpl in F. apply andb_true_iff in F. destruct F as [Y F].
  unfold match_at, param_pattern, Many1. cbn [run app].
  unfold char_eqb at 1. rewrite N.eqb_refl, Y.
  apply many_greedy; [exact F | reflexivity |].
  unfold char_eqb. rewrite N.eqb_refl. reflexivity.
Qed.

(** X4: [_has_params] holds exactly for the texts with an opening brace, at
    least one character other than the closing brace, and a closing
    brace; the empty braces are no placeholder. *)
Theorem has_params_iff (text : str) :
  _has_params text = true <->
  exists before body after,
    text = before ++ lbrace :: body ++ rbrace :: after /\
    body <> [] /\ ~ In rbrace body.
Proof.
  unfold _has_params. rewrite search_iff. split.
  - intros [b [s' [-> N]]].
    destruct (match_at param_pattern s') as [[rest caps]|] eqn:E;
      [|contradiction].
    apply match_param in E. destruct E as [body [-> [_ [B F]]]].
    exists b, body, rest. auto.
  - intros [b [body [a [-> [B F]]]]].
    exists b, (lbrace :: body ++ rbrace :: a).
    rewrite match_param_some by assumption.
    split; [reflexivity | discriminate].
Qed.

(** [_has_chinese] holds exactly for the texts with a character in the
    range U+4E00..U+9FFF. *)
Lemma has_chinese_existsb (text : str) :
  _has_chinese text = existsb is_chinese text.
Proof.
  unfold _has_chinese. induction text as [|c text IH]; [reflexivity|].
  cbn [search existsb]. unfold match_at. cbn [run].
  destruct (is_chinese c); [reflexivity | exact IH].
Qed.

(** X1: A text without placeholder is its own normal form. *)
Theorem format_string_without_params (text : str) :
  _has_params text = false -> _format_string text = text.
Proof.
  intros H. unfold _format_string, findall.
  rewrite (@findall_from_none _ _ _ H). reflexivity.
Qed.

Lemma format_string_without_params_witness :
  _format_string (u "抽卡道具不足 {}") = u "抽卡道具不足 {}".
Proof.
  apply (format_string_without_params (u "抽卡道具不足 {}")).
  vm_compute. reflexivity.
Defined.

(** ** When the normalisation numbers the placeholders from the left *)

Lemma renumber_from_S (fuel i : nat) (s : str) :
  renumber_from (S fuel) i s =
  match match_at param_pattern s with
  | Some (rest, _) => placeholder i ++ renumber_from fuel (S i) rest
  | None =>
      match s with
      | [] => []
      | c :: s' => c :: renumber_from fuel i s'
      end
  end.
Proof. reflexivity. Qed.

Lemma match_param_shorter (s rest : str) (caps : list str) :
  match_at param_pattern s = Some (rest, caps) -> length rest < length s.
Proof.
  intros H. apply match_param in H. destruct H as [body [-> _]].
  simpl. rewrite length_app. simpl. lia.
Qed.

Lemma renumber_from_fuel (f1 : nat) :
  forall f2 i s, length s < f1 -> length s < f2 ->
                 renumber_from f1 i s = renumber_from f2 i s.
Proof.
  induction f1 as [|f1 IH]; intros f2 i s H1 H2; [lia|].
  destruct f2 as [|f2]; [lia|]. rewrite !renumber_from_S.
  destruct (match_at param_pattern s) as [[rest caps]|] eqn:E.
  - apply match_param_shorter in E. f_equal. apply IH; lia.
  - destruct s as [|c s']; [reflexivity|]. simpl in *. f_equal.
    apply IH; lia.
Qed.

Lemma renumber_from_none (fuel : nat) :
  forall i s, search param_pattern s = false -> renumber_from fuel i s = s.
Proof.
  induction fuel as [|fuel IH]; intros i s H; [reflexivity|].
  rewrite renumber_from_S. destruct s as [|c s].
  - cbn [search] in H.
    destruct (match_at param_pattern []); [discriminate | reflexivity].
  - apply search_false_tail in H. destruct H as [-> H].
    f_equal. apply IH, H.
Qed.

Lemma no_rbrace_no_param (s : str) :
  ~ In rbrace s -> search param_pattern s = false.
Proof.
  intros N. destruct (search param_pattern s) eqn:E; [|reflexivity].
  apply has_params_iff in E. destruct E as [b [body [a [-> _]]]].
  exfalso. apply N. apply in_or_app. right. right.
  apply in_or_app. right. left. reflexivity.
Qed.

Lemma match_param_none (s : str) :
  match_at param_pattern (lbrace :: s) = None ->
  (exists s', s = rbrace :: s') \/ ~ In rbrace s.
Proof.
  intros H. destruct s as [|y s']; [right; intros []|].
  destruct (N.eq_dec y rbrace) as [-> | N]; [left; eexists; reflexivity|].
  right. intros K. apply first_split in K. destruct K as [a [b [E F]]].
  destruct a as [|x a].
  - simpl in E. inversion E. contradiction.
  - rewrite E, match_param_some in H; [discriminate | discriminate | exact F].
Qed.

Lemma digits_range (d : Decimal.uint) (c : char) :
  In c (uint_digits d) -> (48 <= c <= 57)%N.
Proof.
  induction d; simpl; intros H;
    try (destruct H as [<- | H]; [lia | exact (IHd H)]).
  contradiction.
Qed.

Lemma placeholder_shape (j : nat) :
  exists digits,
    placeholder j = lbrace :: digits ++ [rbrace] /\
    ~ In lbrace digits /\ ~ In rbrace digits.
Proof.
  exists (str_of_nat j). split; [reflexivity|].
  split; intros H; apply digits_range in H; unfold lbrace, rbrace in H; lia.
Qed.

Lemma replace_first_eq (old new s : str) :
  replace_first old new s =
  if startswith s old then new ++ skipn (length old) s
  else match s with
       | [] => []
       | c :: s' => c :: replace_first old new s'
       end.
Proof. destruct s; reflexivity. Qed.

Lemma replace_first_head (p new rest : str) :
  replace_first p new (p ++ rest) = new ++ rest.
Proof.
  rewrite replace_first_eq, startswith_self_app, skipn_app, skipn_all,
    Nat.sub_diag.
  reflexivity.
Qed.

Lemma replace_first_skip (p' new a s : str) :
  ~ In lbrace a ->
  replace_first (lbrace :: p') new (a ++ s) =
  a ++ replace_first (lbrace :: p') new s.
Proof.
  induction a as [|c a IH]; intros N; [reflexivity|].
  cbn [app]. rewrite replace_first_eq. cbn [startswith].
  assert (E : char_eqb c lbrace = false).
  { unfold char_eqb. apply N.eqb_neq. intros ->. apply N. left; reflexivity. }
  rewrite E. cbn [andb]. f_equal. apply IH. intros K. apply N. right; exact K.
Qed.

Lemma settled_mono (i : nat) (d : str) : settled i d -> settled (S i) d.
Proof.
  induction 1; [constructor | constructor; assumption | constructor; assumption|].
  apply settled_placeholder; [lia | assumption].
Qed.

Lemma settled_app (i : nat) (a b : str) :
  settled i a -> settled i b -> settled i (a ++ b).
Proof.
  intros A B. induction A; cbn [app].
  - exact B.
  - constructor; assumption.
  - constructor; assumption.
  - rewrite <- app_assoc. apply settled_placeholder; assumption.
Qed.

Lemma braces_no_span (body x : str) :
  body <> [] -> ~ In rbrace body ->
  startswith (lbrace :: rbrace :: x) (lbrace :: body ++ [rbrace]) = false.
Proof.
  intros B F. destruct body as [|y body]; [contradiction|].
  cbn [app startswith].
  assert (E : char_eqb rbrace y = false).
  { unfold char_eqb. apply N.eqb_neq. intros <-. apply F. left; reflexivity. }
  rewrite E. apply andb_false_r.
Qed.

(** In a settled text the placeholder text of a span that is none of
    the placeholders already written does not occur: the replacement
    acts on what follows. *)
Lemma settled_replace (i : nat) (done body new : str) :
  settled i done -> body <> [] -> ~ In rbrace body ->
  (forall j, j < i -> lbrace :: body ++ [rbrace] <> placeholder j) ->
  forall s,
    replace_first (lbrace :: body ++ [rbrace]) new (done ++ s) =
    done ++ replace_first (lbrace :: body ++ [rbrace]) new s.
Proof.
  intros D B F P s. induction D as [|c d N D IH|d D IH|j d L D IH].
  - reflexivity.
  - cbn [app]. rewrite <- IH.
    apply (replace_first_skip _ new [c] (d ++ s)).
    intros [E | []]. contradiction.
  - cbn [app]. rewrite replace_first_eq, braces_no_span by assumption.
    f_equal. rewrite <- IH.
    apply (replace_first_skip _ new [rbrace] (d ++ s)).
    intros [E' | []]. discriminate E'.
  - destruct (placeholder_shape j) as [digits [Q [NL NR]]].
    rewrite <- app_assoc, replace_first_eq.
    destruct (startswith (placeholder j ++ d ++ s)
                         (lbrace :: body ++ [rbrace])) eqn:S.
    + exfalso. apply startswith_app in S. rewrite Q in S.
      cbn [app] in S. inversion S as [S'].
      rewrite <- !app_assoc in S'. cbn [app] in S'.
      apply first_split_unique in S'; [|assumption..].
      destruct S' as [<- _]. apply (P j L). symmetry. exact Q.
    + rewrite Q at 1 2. cbn [app]. f_equal.
      rewrite (replace_first_skip _ new (digits ++ [rbrace]) (d ++ s)).
      * rewrite IH, <- (app_assoc _ d). reflexivity.
      * intros K. apply in_app_or in K. destruct K as [K | [K | []]];
          [contradiction | discriminate K].
Qed.

Lemma format_loop_renumber (n : nat) :
  forall s i done,
    length s <= n -> settled i done ->
    fresh i (findall param_pattern s) ->
    format_loop i (findall param_pattern s) (done ++ s) =
    done ++ renumber_from (S (length s)) i s.
Proof.
  induction n as [|n IH]; intros s i done L D Fr.
  - destruct s; [reflexivity | simpl in L; lia].
  - destruct s as [|c s']; [reflexivity|].
    rewrite renumber_from_S.
    destruct (match_at param_pattern (c :: s')) as [[rest caps]|] eqn:E.
    + pose proof (@match_param_shorter _ _ _ E) as Sh.
      rewrite (@findall_match _ _ _ _ E Sh) in *.
      apply match_param in E. destruct E as [body [E [-> [B F]]]].
      replace (lbrace :: body ++ rbrace :: rest)
        with ((lbrace :: body ++ [rbrace]) ++ rest) in E
        by (cbn [app]; rewrite <- app_assoc; reflexivity).
      rewrite E in *. unfold reported in *. rewrite firstn_consumed in *.
      destruct Fr as [P Fr]. cbn [format_loop].
      rewrite (@settled_replace i done body (placeholder i) D B F P),
        replace_first_head.
      rewrite app_assoc, IH; try assumption.
      * rewrite <- app_assoc. do 2 f_equal.
        apply renumber_from_fuel; lia.
      * rewrite length_app in L. simpl in L. lia.
      * apply settled_app; [apply settled_mono, D|].
        rewrite <- (app_nil_r (placeholder i)).
        apply settled_placeholder; [lia | constructor].
    + destruct (N.eq_dec c lbrace) as [-> | N].
      * destruct (@match_param_none _ E) as [[s'' ->] | K].
        -- assert (E2 : match_at param_pattern (rbrace :: s'') = None)
             by reflexivity.
           rewrite (@findall_skip _ _ _ E), (@findall_skip _ _ _ E2) in *.
           cbn [length]. rewrite renumber_from_S, E2.
           change (done ++ lbrace :: rbrace :: s'')
             with (done ++ [lbrace; rbrace] ++ s'').
           rewrite app_assoc, IH; try assumption.
           ++ rewrite <- app_assoc. reflexivity.
           ++ simpl in L. lia.
           ++ apply settled_app; [exact D | apply settled_braces, settled_nil].
        -- assert (S : search param_pattern (lbrace :: s') = false).
           { apply no_rbrace_no_param. intros [Q | Q];
               [discriminate Q | contradiction]. }
           unfold findall. rewrite (@findall_from_none _ _ _ S).
           apply search_false_tail in S. destruct S as [_ S].
           rewrite (@renumber_from_none _ _ _ S). reflexivity.
      * rewrite (@findall_skip _ _ _ E) in *.
        change (done ++ c :: s') with (done ++ [c] ++ s').
        rewrite app_assoc, IH; try assumption.
        -- rewrite <- app_assoc. reflexivity.
        -- simpl in L. lia.
        -- apply settled_app;
             [exact D | apply settled_char; [exact N | apply settled_nil]].
Qed.

(** X3: When no placeholder text is one of the indices written before its
    turn, the normalisation numbers the spans from the left: on such
    texts the code does what its documentation says. *)
Theorem format_string_renumber (text : str) :
  fresh 0 (findall param_pattern text) ->
  _format_string text = renumber text.
Proof.
  intros H. unfold _format_string, renumber.
  apply (format_loop_renumber (n := length text) text (done := []));
    [lia | constructor | exact H].
Qed.

Lemma format_string_renumber_witness :
  _format_string (u "Lv.{cfg.level} / {NumberUtils.Format(power)}")
  = renumber (u "Lv.{cfg.level} / {NumberUtils.Format(power)}").
Proof.
  apply (format_string_renumber
           (u "Lv.{cfg.level} / {NumberUtils.Format(power)}")).
  assert (E : findall param_pattern
                (u "Lv.{cfg.level} / {NumberUtils.Format(power)}")
              = [u "{cfg.level}"; u "{NumberUtils.Format(power)}"])
    by (vm_compute; reflexivity).
  rewrite E. cbn [fresh].
  split; [intros j Hj; lia|]. split; [|exact I].
  intros j Hj. assert (J : j = 0) by lia. subst j.
  vm_compute. discriminate.
Defined.

(** ** The two passes over a line *)

Lemma quoted_app (text after : str) :
  quoted text ++ after = dquote :: text ++ dquote :: after.
Proof. unfold quoted. cbn [app]. rewrite <- app_assoc. reflexivity. Qed.

Lemma many_none {A} (p : char -> bool) (k : str -> option A) (s : str) :
  (forall a b, s = a ++ b -> k b = None) -> many p k s = None.
Proof.
  induction s as [|x s IH]; intros H; cbn [many].
  - apply (H [] []). reflexivity.
  - assert (K : k (x :: s) = None) by (apply (H [] (x :: s)); reflexivity).
    rewrite K. destruct (p x); [|reflexivity].
    rewrite IH; [reflexivity|].
    intros a b ->. apply (H (x :: a) b). reflexivity.
Qed.

Lemma match_plain_other (c : char) (s : str) :
  c <> dquote -> match_at plain_pattern (c :: s) = None.
Proof.
  intros N. unfold match_at, plain_pattern. cbn [cats run].
  unfold char_eqb. apply N.eqb_neq in N. rewrite N. reflexivity.
Qed.

Lemma match_plain_some (text after : str) :
  ~ In dquote text ->
  match_at plain_pattern (dquote :: text ++ dquote :: after)
  = Some (after, [text]).
Proof.
  intros F. unfold match_at, plain_pattern. cbn [cats run].
  unfold char_eqb at 1. rewrite N.eqb_refl.
  apply many_greedy.
  - apply not_char_forallb, F.
  - unfold not_char, char_eqb. rewrite N.eqb_refl. reflexivity.
  - unfold char_eqb. rewrite N.eqb_refl.
    rewrite (firstn_consumed text (dquote :: after)). reflexivity.
Qed.

Lemma match_plain_open (text : str) :
  ~ In dquote text -> match_at plain_pattern (dquote :: text) = None.
Proof.
  intros F. unfold match_at, plain_pattern. cbn [cats run].
  unfold char_eqb at 1. rewrite N.eqb_refl.
  apply many_none. intros a b ->.
  destruct b as [|y b]; [reflexivity|].
  assert (N : char_eqb y dquote = false).
  { unfold char_eqb. apply N.eqb_neq. intros ->. apply F.
    apply in_or_app. right. left. reflexivity. }
  rewrite N. reflexivity.
Qed.

Lemma findall_plain_free (s : str) :
  ~ In dquote s -> findall plain_pattern s = [].
Proof.
  induction s as [|c s IH]; intros F; [reflexivity|].
  rewrite findall_skip.
  - apply IH. intros K. apply F. right; exact K.
  - apply match_plain_other. intros ->. apply F. left; reflexivity.
Qed.

Lemma findall_plain_skip (before s : str) :
  ~ In dquote before ->
  findall plain_pattern (before ++ s) = findall plain_pattern s.
Proof.
  induction before as [|c before IH]; intros F; [reflexivity|].
  cbn [app]. rewrite findall_skip.
  - apply IH. intros K. apply F. right; exact K.
  - apply match_plain_other. intros ->. apply F. left; reflexivity.
Qed.

(** X5: The plain pass pairs the double quotes of a line from the left:
    what stands before the first quote gives nothing, the text up to
    the next quote is reported and the pass goes on after it; a quote
    without partner opens nothing. *)
Theorem plain_pass_pairs_quotes (before text after : str) :
  ~ In dquote before -> ~ In dquote text ->
  findall plain_pattern (before ++ quoted text ++ after)
  = text :: findall plain_pattern after /\
  findall plain_pattern (before ++ dquote :: text) = [] /\
  findall plain_pattern before = [].
Proof.
  intros B T. split; [|split].
  - rewrite findall_plain_skip, quoted_app by exact B.
    rewrite (findall_match _ _ (match_plain_some text after T));
      [reflexivity|].
    simpl. rewrite length_app. simpl. lia.
  - rewrite findall_plain_skip by exact B.
    rewrite findall_skip by (apply match_plain_open, T).
    apply findall_plain_free, T.
  - apply findall_plain_free, B.
Qed.

Lemma plain_pass_pairs_quotes_witness :
  findall plain_pattern
    (u "Show(" ++ quoted (u "提示") ++ u ", " ++ quoted (u "确定") ++ u ");")
  = [u "提示"; u "确定"].
Proof.
  assert (B : ~ In dquote (u "Show("))
    by (vm_compute; intuition discriminate).
  assert (T : ~ In dquote (u "提示"))
    by (vm_compute; intuition discriminate).
  destruct (plain_pass_pairs_quotes (u "Show(") (u "提示")
              (u ", " ++ quoted (u "确定") ++ u ");") B T) as [A _].
  rewrite A. vm_compute. reflexivity.
Defined.

Lemma candidate_of_plain (line text : str) :
  ignored line = false ->
  In text (findall plain_pattern line) -> _has_chinese text = true ->
  In text (_find_chinese_strings line).
Proof.
  intros G H C. unfold _find_chinese_strings. rewrite G.
  destruct (plain_fold_shape (findall plain_pattern line)
                             (interpolated_kept line)) as [added [-> [_ I]]].
  apply in_or_app.
  destruct (in_dec str_eq_dec text (interpolated_kept line)) as [K | K];
    [left; exact K | right; apply I; auto].
Qed.

(** X6: The first quoted text of a line that no ignore pattern suppresses
    is a candidate as soon as it has a script character, whatever
    stands before it: the marker of a line comment does not hide it. *)
Theorem first_literal_is_candidate (before text after : str) :
  ignored (before ++ quoted text ++ after) = false ->
  ~ In dquote before -> ~ In dquote text -> _has_chinese text = true ->
  In text (_find_chinese_strings (before ++ quoted text ++ after)).
Proof.
  intros G B T C. apply candidate_of_plain; [exact G | | exact C].
  destruct (plain_pass_pairs_quotes before text after B T) as [-> _].
  left; reflexivity.
Qed.

Lemma first_literal_is_candidate_witness :
  In (u "旧的提示")
     (_find_chinese_strings
        (u "int a = 1; // " ++ quoted (u "旧的提示") ++ u " todo")).
Proof.
  apply (first_literal_is_candidate (u "int a = 1; // ") (u "旧的提示")
           (u " todo"));
    vm_compute; try reflexivity; intuition discriminate.
Defined.

Lemma match_interpolated_other (c : char) (s : str) :
  c <> dollar -> match_at interpolated_pattern (c :: s) = None.
Proof.
  intros N. unfold match_at, interpolated_pattern. cbn [cats run].
  unfold char_eqb. apply N.eqb_neq in N. fold dollar. rewrite N. reflexivity.
Qed.

Lemma match_interpolated_some (text after : str) :
  ~ In dquote text ->
  match_at interpolated_pattern (dollar :: dquote :: text ++ dquote :: after)
  = Some (after, [text]).
Proof.
  intros F. unfold match_at, interpolated_pattern. cbn [cats run].
  fold dollar. unfold char_eqb at 1 2. rewrite !N.eqb_refl.
  apply many_greedy.
  - apply not_char_forallb, F.
  - unfold not_char, char_eqb. rewrite N.eqb_refl. reflexivity.
  - unfold char_eqb. rewrite N.eqb_refl.
    rewrite (firstn_consumed text (dquote :: after)). reflexivity.
Qed.

Lemma findall_interpolated_skip (before s : str) :
  ~ In dollar before ->
  findall interpolated_pattern (before ++ s) = findall interpolated_pattern s.
Proof.
  induction before as [|c before IH]; intros F; [reflexivity|].
  cbn [app]. rewrite findall_skip.
  - apply IH. intros K. apply F. right; exact K.
  - apply match_interpolated_other. intros ->. apply F. left; reflexivity.
Qed.

Lemma findall_interpolated_free (s : str) :
  ~ In dollar s -> findall interpolated_pattern s = [].
Proof.
  intros F. rewrite <- (app_nil_r s), findall_interpolated_skip by exact F.
  reflexivity.
Qed.

(** X7: The first interpolated literal of a line that no ignore pattern
    suppresses is a candidate as soon as it has a script character or a
    placeholder: a literal made of placeholders only is kept. *)
Theorem interpolated_literal_is_candidate (before text after : str) :
  ignored (before ++ dollar :: quoted text ++ after) = false ->
  ~ In dollar before -> ~ In dquote text ->
  _has_chinese text = true \/ _has_params text = true ->
  In text (_find_chinese_strings (before ++ dollar :: quoted text ++ after)).
Proof.
  intros G B T K. unfold _find_chinese_strings. rewrite G.
  destruct (plain_fold_shape
              (findall plain_pattern
                 (before ++ dollar :: quoted text ++ after))
              (interpolated_kept
                 (before ++ dollar :: quoted text ++ after)))
    as [added [-> _]].
  apply in_or_app. left. apply interpolated_kept_In. split; [|exact K].
  rewrite findall_interpolated_skip, quoted_app by exact B.
  rewrite (findall_match _ _ (match_interpolated_some text after T)).
  - left; reflexivity.
  - simpl. rewrite length_app. simpl. lia.
Qed.

Lemma interpolated_literal_is_candidate_witness :
  In (u "{cur}/{max}")
     (_find_chinese_strings
        (u "bar.text = " ++ dollar :: quoted (u "{cur}/{max}") ++ u ";")).
Proof.
  apply (interpolated_literal_is_candidate (u "bar.text = ")
           (u "{cur}/{max}") (u ";")).
  - vm_compute. reflexivity.
  - vm_compute. intuition discriminate.
  - vm_compute. intuition discriminate.
  - right. vm_compute. reflexivity.
Defined.

(** X8: On a line without dollar sign every candidate has a script
    character: a plain literal made of placeholders only is never
    kept. *)
Theorem plain_candidates_have_script (line t : str) :
  ~ In dollar line -> In t (_find_chinese_strings line) ->
  _has_chinese t = true.
Proof.
  intros D H. unfold _find_chinese_strings in H.
  destruct (ignored line); [destruct H|].
  apply plain_step_In in H. destruct H as [H | [_ C]]; [|exact C].
  unfold interpolated_kept in H.
  rewrite findall_interpolated_free in H by exact D. destruct H.
Qed.

Lemma plain_candidates_have_script_witness :
  _has_chinese (u "第{0}关") = true.
Proof.
  apply (plain_candidates_have_script
           (u "t = Format(" ++ quoted (u "{0}/{1}") ++ u ", "
              ++ quoted (u "第{0}关") ++ u ");")).
  - vm_compute. intuition discriminate.
  - vm_compute. left; reflexivity.
Defined.

(** ** Ignore patterns *)

Lemma run_lit {A} (w : str) :
  forall (s : str) (caps : list str) (k : str -> list str -> option A),
    run (lit w) s caps k =
    if startswith s w then k (skipn (length w) s) caps else None.
Proof.
  induction w as [|c w IH]; intros s caps k.
  - destruct s; reflexivity.
  - destruct w as [|c' w'].
    + destruct s as [|x s]; [reflexivity|].
      cbn [lit run startswith length skipn].
      destruct (char_eqb x c); [|reflexivity]. destruct s; reflexivity.
    + change (lit (c :: c' :: w')) with (Cat (Chr c) (lit (c' :: w'))).
      destruct s as [|x s]; [reflexivity|].
      cbn [run]. rewrite IH.
      change (startswith (x :: s) (c :: c' :: w'))
        with (char_eqb x c && startswith s (c' :: w')).
      destruct (char_eqb x c); reflexivity.
Qed.

Lemma search_lit (w s : str) : search (lit w) s = contains w s.
Proof.
  induction s as [|c s IH]; cbn [search contains]; unfold match_at;
    rewrite run_lit.
  - destruct (startswith [] w); reflexivity.
  - destruct (startswith (c :: s) w); [reflexivity | exact IH].
Qed.

Lemma search_word (w : string) (s : str) :
  search (word w) s = contains (u w) s.
Proof. apply search_lit. Qed.

(** A pattern that begins with a literal word is only found in lines
    that contain the word. *)
Lemma search_cat_lit (w : str) (r : regex) (s : str) :
  search (Cat (lit w) r) s = true -> contains w s = true.
Proof.
  induction s as [|c s IH]; cbn [search contains]; unfold match_at;
    cbn [run]; rewrite run_lit.
  - destruct (startswith [] w); [reflexivity|]. discriminate.
  - destruct (startswith (c :: s) w); [reflexivity|]. exact IH.
Qed.

Lemma contains_iff (p s : str) :
  contains p s = true <->
  exists before s', s = before ++ s' /\ startswith s' p = true.
Proof.
  induction s as [|c s IH]; cbn [contains].
  - rewrite orb_false_r. split.
    + intros H. exists [], []. auto.
    + intros [b [s' [E H]]]. symmetry in E. apply app_eq_nil in E.
      destruct E as [_ ->]. exact H.
  - rewrite orb_true_iff, IH. split.
    + intros [H | [b [s' [-> H]]]].
      * exists [], (c :: s). auto.
      * exists (c :: b), s'. auto.
    + intros [b [s' [E H]]]. destruct b as [|x b].
      * simpl in E. subst s'. left; exact H.
      * inversion E; subst. right. exists b, s'. auto.
Qed.

(** A pattern that is a literal word followed by a group of
    alternatives, the first of which is a literal word, is found in
    every line that contains the two words in a row. *)
Lemma match_word_group (w a : str) (rest : regex) (s : str) :
  startswith s (w ++ a) = true ->
  match_at (Cat (lit w) (Group (Alt (lit a) rest))) s <> None.
Proof.
  intros H. apply startswith_app in H. rewrite H. unfold match_at.
  cbn [run]. rewrite run_lit, <- app_assoc, startswith_self_app,
    skipn_app, skipn_all, Nat.sub_diag.
  cbn [skipn app run]. rewrite run_lit, startswith_self_app.
  cbn [orelse]. discriminate.
Qed.

Lemma search_word_group (w a : str) (rest : regex) (s : str) :
  contains (w ++ a) s = true ->
  search (Cat (lit w) (Group (Alt (lit a) rest))) s = true.
Proof.
  intros H. apply contains_iff in H. destruct H as [b [s' [-> H]]].
  apply search_iff. exists b, s'. split; [reflexivity|].
  apply match_word_group, H.
Qed.

Lemma ignored_by (k : nat) (line : str) :
  k < length IGNORE_API_PATTERNS ->
  search (nth k IGNORE_API_PATTERNS Eps) line = true -> ignored line = true.
Proof.
  intros K H. apply ignored_iff. eexists. split; [|exact H].
  apply nth_In, K.
Qed.

(** X9: A line that contains one of the suppressing words anywhere yields
    no candidate: [Debug.Log] also suppresses as the beginning of a
    longer name. *)
Theorem suppressing_word_suppresses (line w : str) :
  In w suppressing_words -> contains w line = true ->
  ignored line = true /\ _find_chinese_strings line = [].
Proof.
  intros W H.
  assert (G : ignored line = true).
  { unfold suppressing_words in W. cbn [map In] in W.
    destruct W as [<- | [<- | [<- | [<- | [<- | [<- | [<- | []]]]]]]].
    - apply (@ignored_by 0); [simpl; lia|].
      apply (search_word_group (u "Debug.") (u "Log")). exact H.
    - apply (@ignored_by 1); [simpl; lia|].
      apply (search_word_group (u "SLApp.Log.") (u "Info")). exact H.
    - apply (@ignored_by 2); [simpl; lia|].
      apply (search_word_group (u "SLApp.Debug.") (u "Log")). exact H.
    - apply (@ignored_by 3); [simpl; lia|].
      cbn [nth IGNORE_API_PATTERNS]. rewrite search_word. exact H.
    - apply (@ignored_by 4); [simpl; lia|].
      cbn [nth IGNORE_API_PATTERNS]. rewrite search_word. exact H.
    - apply (@ignored_by 5); [simpl; lia|].
      cbn [nth IGNORE_API_PATTERNS]. rewrite search_word. exact H.
    - apply (@ignored_by 9); [simpl; lia|].
      cbn [nth IGNORE_API_PATTERNS]. rewrite search_word. exact H. }
  split; [exact G|]. unfold _find_chinese_strings. rewrite G. reflexivity.
Qed.

Lemma suppressing_word_suppresses_witness :
  _find_chinese_strings
    (u "MyDebug.Logger.Tag = " ++ quoted (u "战斗") ++ u ";") = [].
Proof.
  refine (proj2 (@suppressing_word_suppresses
                   (u "MyDebug.Logger.Tag = " ++ quoted (u "战斗") ++ u ";")
                   (u "Debug.Log") _ _)).
  - left; reflexivity.
  - vm_compute. reflexivity.
Defined.

(** The word each ignore pattern begins with. *)
Lemma leading_word_of_pattern :
  Forall (fun pattern =>
            forall line, search pattern line = true ->
                         exists w, In w leading_words /\
                                   contains w line = true)
         IGNORE_API_PATTERNS.
Proof.
  unfold IGNORE_API_PATTERNS.
  repeat apply Forall_cons; [..|apply Forall_nil]; intros line S.
  - exists (u "Debug."). split; [left; reflexivity|].
    exact (search_cat_lit _ _ _ S).
  - exists (u "SLApp.Log."). split; [do 1 right; left; reflexivity|].
    exact (search_cat_lit _ _ _ S).
  - exists (u "SLApp.Debug."). split; [do 2 right; left; reflexivity|].
    exact (search_cat_lit _ _ _ S).
  - exists (u "UnityEngine.Debug."). split; [do 3 right; left; reflexivity|].
    rewrite search_word in S. exact S.
  - exists (u "Console.WriteLine"). split; [do 4 right; left; reflexivity|].
    rewrite search_word in S. exact S.
  - exists (u "UnityEditor.EditorUtility.DisplayDialog").
    split; [do 5 right; left; reflexivity|].
    rewrite search_word in S. exact S.
  - exists (u "throw"). split; [do 6 right; left; reflexivity|].
    exact (search_cat_lit (u "throw") _ _ S).
  - exists (u ".LogException"). split; [do 7 right; left; reflexivity|].
    exact (search_cat_lit (u ".LogException") _ _ S).
  - exists (u ".LogErrorException"). split; [do 8 right; left; reflexivity|].
    exact (search_cat_lit (u ".LogErrorException") _ _ S).
  - exists (u "ExceptionHelper."). split; [do 9 right; left; reflexivity|].
    rewrite search_word in S. exact S.
Qed.

(** X10: A line that contains none of the leading words of the ignore
    patterns is never suppressed. *)
Theorem unsuppressed_without_leading_words (line : str) :
  (forall w, In w leading_words -> contains w line = false) ->
  ignored line = false.
Proof.
  intros H. destruct (ignored line) eqn:G; [|reflexivity].
  apply ignored_iff in G. destruct G as [pattern [P S]].
  pose proof leading_word_of_pattern as F. rewrite Forall_forall in F.
  destruct (F pattern P line S) as [w [W C]].
  rewrite (H w W) in C. discriminate.
Qed.

Lemma unsuppressed_without_leading_words_witness :
  ignored (u "tip.text = " ++ quoted (u "抽卡道具不足") ++ u ";") = false.
Proof.
  apply (unsuppressed_without_leading_words
           (u "tip.text = " ++ quoted (u "抽卡道具不足") ++ u ";")).
  intros w W. unfold leading_words in W. cbn [map In] in W.
  repeat (destruct W as [<- | W]; [vm_compute; reflexivity|]).
  destruct W.
Defined.

(** ** Attribute lines *)

Lemma find_char_spec (c : char) (s : str) (n : nat) :
  find_char c s = Some n ->
  exists a b, s = a ++ c :: b /\ ~ In c a /\ length a = n.
Proof.
  revert n. induction s as [|x s IH]; intros n; cbn [find_char];
    [discriminate|].
  destruct (char_eqb x c) eqn:E.
  - intros K. inversion K; subst. apply char_eqb_eq in E. subst x.
    exists [], s. auto.
  - destruct (find_char c s) as [m|]; [|discriminate].
    intros K. inversion K; subst.
    destruct (IH m eq_refl) as [a [b [-> [F L]]]].
    exists (x :: a), b. split; [reflexivity|]. split; [|simpl; lia].
    intros [-> | K']; [|contradiction].
    unfold char_eqb in E. rewrite N.eqb_refl in E. discriminate.
Qed.

Lemma find_char_first (c : char) (a b : str) :
  ~ In c a -> find_char c (a ++ c :: b) = Some (length a).
Proof.
  induction a as [|x a IH]; intros F; cbn [app find_char length].
  - unfold char_eqb. rewrite N.eqb_refl. reflexivity.
  - assert (E : char_eqb x c = false).
    { unfold char_eqb. apply N.eqb_neq. intros ->. apply F. left; reflexivity. }
    rewrite E, IH; [reflexivity|]. intros K. apply F. right; exact K.
Qed.

Lemma contains_char (c : char) (s : str) :
  contains [c] s = true <-> In c s.
Proof.
  induction s as [|x s IH]; cbn [contains startswith In].
  - split; [discriminate | intros []].
  - rewrite orb_true_iff, IH.
    assert (E : char_eqb x c && startswith s [] = true <-> x = c).
    { destruct s; cbn [startswith]; rewrite andb_true_r; apply char_eqb_eq. }
    rewrite E. tauto.
Qed.

(** X11: A line is an attribute line exactly when, without the white space
    around it, it begins with an opening bracket and only white space
    follows the first closing bracket; a second attribute or code after
    the bracket makes it an ordinary line. *)
Theorem attribute_line_iff (line : str) :
  _is_attribute_line line = true <->
  exists inner after,
    strip line = lbracket :: inner ++ rbracket :: after /\
    ~ In rbracket inner /\ strip after = [].
Proof.
  unfold _is_attribute_line. split.
  - destruct (startswith (strip line) [lbracket]) eqn:S; [|discriminate].
    destruct (contains [rbracket] (strip line)) eqn:C; [|discriminate].
    cbn [andb].
    destruct (find_char rbracket (strip line)) as [n|] eqn:F; [|discriminate].
    apply find_char_spec in F. destruct F as [a [b [E [N L]]]].
    rewrite E in *. subst n.
    replace (length a + 1) with (length (a ++ [rbracket]))
      by (rewrite length_app; reflexivity).
    replace (a ++ rbracket :: b) with ((a ++ [rbracket]) ++ b)
      by (rewrite <- app_assoc; reflexivity).
    rewrite skipn_app, skipn_all, Nat.sub_diag. cbn [skipn app].
    destruct (strip b) eqn:B; [|discriminate]. intros _.
    destruct a as [|x a].
    + cbn [app startswith] in S. discriminate S.
    + cbn [app startswith] in S. apply andb_true_iff in S.
      destruct S as [X _]. apply char_eqb_eq in X. subst x.
      exists a, b. rewrite <- app_assoc. cbn [app].
      split; [reflexivity|]. split; [|exact B].
      intros K. apply N. right; exact K.
  - intros [inner [after [E [N B]]]]. rewrite E.
    assert (S : startswith (lbracket :: inner ++ rbracket :: after)
                           [lbracket] = true).
    { cbn [startswith]. destruct (inner ++ rbracket :: after); reflexivity. }
    assert (C : contains [rbracket] (lbracket :: inner ++ rbracket :: after)
                = true).
    { apply contains_char. right. apply in_or_app. right. left. reflexivity. }
    rewrite S, C. cbn [andb].
    change (lbracket :: inner ++ rbracket :: after)
      with ((lbracket :: inner) ++ rbracket :: after).
    rewrite find_char_first.
    + replace (length (lbracket :: inner) + 1)
        with (length ((lbracket :: inner) ++ [rbracket]))
        by (rewrite length_app; reflexivity).
      replace ((lbracket :: inner) ++ rbracket :: after)
        with (((lbracket :: inner) ++ [rbracket]) ++ after)
        by (rewrite <- app_assoc; reflexivity).
      rewrite skipn_app, skipn_all, Nat.sub_diag. cbn [skipn app].
      rewrite B. reflexivity.
    + intros [K | K]; [discriminate K | contradiction].
Qed.

(** ** Block comments that are not closed *)

Lemma scan_line_inside (name : str) (i : nat) (line : str) :
  contains (u "*/") line = false -> scan_line name true i line = (true, []).
Proof.
  intros H. unfold scan_line. rewrite H.
  destruct (contains (u "/*") line); reflexivity.
Qed.

Lemma scan_lines_inside (name : str) (lines : list str) :
  forall i,
    Forall (fun l => contains (u "*/") l = false) lines ->
    scan_lines name true i lines = [].
Proof.
  induction lines as [|l lines IH]; intros i F; [reflexivity|].
  inversion F; subst. cbn [scan_lines].
  rewrite scan_line_inside by assumption. cbn [app]. apply IH. assumption.
Qed.

(** X12: After a line that opens a block comment, nothing more is extracted
    from the file as long as no line contains the closer: a comment
    that is never closed swallows the rest of the file. *)
Theorem unclosed_comment_swallows_rest
        (name : str) (st : bool) (i : nat) (before after : list str)
        (line : str) :
  contains (u "/*") line = true ->
  Forall (fun l => contains (u "*/") l = false) (line :: after) ->
  scan_lines name st i (before ++ line :: after) =
  scan_lines name st i before.
Proof.
  intros O F. inversion F; subst.
  rewrite scan_lines_app. cbn [scan_lines].
  rewrite scan_line_opener by assumption. cbn [app].
  rewrite scan_lines_inside by assumption. apply app_nil_r.
Qed.

Lemma unclosed_comment_swallows_rest_witness :
  scan_lines (u "a.cs") false 1
    ([u "s = " ++ quoted (u "开始")] ++
     u "/* 旧代码" :: [u "t = " ++ quoted (u "结束")]) =
  scan_lines (u "a.cs") false 1 [u "s = " ++ quoted (u "开始")].
Proof.
  apply (@unclosed_comment_swallows_rest (u "a.cs") false 1
           [u "s = " ++ quoted (u "开始")] [u "t = " ++ quoted (u "结束")]
           (u "/* 旧代码")).
  - vm_compute. reflexivity.
  - repeat constructor; vm_compute; reflexivity.
Defined.

(** ** Where the records of a file come from *)

Lemma scan_lines_sound (name : str) (cs : ChineseString) (lines : list str) :
  forall st i,
    In cs (scan_lines name st i lines) ->
    exists k line t,
      nth_error lines k = Some line /\
      pos cs = make_pos name (i + k) /\
      In t (_find_chinese_strings line) /\
      value cs = _format_string t /\
      contains (u "*/") line = false /\
      _is_attribute_line line = false.
Proof.
  induction lines as [|l lines IH]; intros st i H; [destruct H|].
  cbn [scan_lines] in H.
  destruct (scan_line name st i l) as [st' found] eqn:E.
  apply in_app_or in H. destruct H as [H | H].
  - unfold scan_line in E.
    destruct (contains (u "*/") l) eqn:C;
      [inversion E; subst; destruct H|].
    destruct (if contains (u "/*") l then true else st);
      [inversion E; subst; destruct H|].
    destruct (_is_attribute_line l) eqn:A;
      [inversion E; subst; destruct H|].
    inversion E; subst. apply in_map_iff in H. destruct H as [t [<- T]].
    exists 0, l, t. rewrite Nat.add_0_r. cbn [nth_error value pos].
    repeat split; assumption || reflexivity.
  - destruct (IH _ _ H) as [k [line [t [N [P R]]]]].
    exists (S k), line, t. split; [exact N|].
    split; [rewrite P; f_equal; lia | exact R].
Qed.

(** X13: Every record of a file stems from one of its lines: its position
    names the file and the number of the line, counted from 1, and its
    value is the normalisation of a candidate of that raw line, which
    neither contains the closer of a block comment nor is an attribute
    line. *)
Theorem extract_from_file_sound
        (f : source_file) (records : list ChineseString)
        (cs : ChineseString) :
  extract_from_file f = Returned records -> In cs records ->
  exists content k line t,
    read f = Returned content /\
    nth_error (split_lines content) k = Some line /\
    pos cs = make_pos (file_name f) (S k) /\
    In t (_find_chinese_strings line) /\
    value cs = _format_string t /\
    contains (u "*/") line = false /\
    _is_attribute_line line = false.
Proof.
  unfold extract_from_file. destruct (read f) as [content|e]; cbn.
  - intros E H. inversion E; subst.
    apply scan_lines_sound in H.
    destruct H as [k [line [t H]]]. exists content, k, line, t.
    split; [reflexivity | exact H].
  - intros E H. inversion E; subst. destruct H.
Qed.

Lemma extract_from_file_sound_witness :
  exists content k line t,
    read sample_file = Returned content /\
    nth_error (split_lines content) k = Some line /\
    u "Shop.cs---2" = make_pos (file_name sample_file) (S k) /\
    In t (_find_chinese_strings line) /\
    u "抽卡道具不足" = _format_string t /\
    contains (u "*/") line = false /\
    _is_attribute_line line = false.
Proof.
  apply (@extract_from_file_sound sample_file
           [mkChineseString (u "抽卡道具不足") (u "Shop.cs---2")]
           (mkChineseString (u "抽卡道具不足") (u "Shop.cs---2"))).
  - vm_compute. reflexivity.
  - left; reflexivity.
Defined.

(** ** The walk over a directory *)

(** X14: A file whose suffix is not [.cs] contributes nothing, whatever it
    holds and whether it can be read or not. *)
Theorem other_files_are_skipped
        (f : source_file) (dir : str) (before after : list source_file)
        (dirs : list folder) :
  mem (suffix (file_name f)) CODE_EXTENSIONS = false ->
  extract_from_files (before ++ f :: after) =
  extract_from_files (before ++ after) /\
  extract_from_directory (Folder dir (before ++ f :: after) dirs) =
  extract_from_directory (Folder dir (before ++ after) dirs).
Proof.
  intros H.
  assert (E : extract_from_files (before ++ f :: after) =
              extract_from_files (before ++ after)).
  { induction before as [|g before IH]; cbn [app extract_from_files].
    - rewrite H. reflexivity.
    - rewrite IH. reflexivity. }
  split; [exact E|]. cbn [extract_from_directory]. rewrite E. reflexivity.
Qed.

Lemma other_files_are_skipped_witness :
  extract_from_files ([sample_file] ++ meta_file :: []) =
  extract_from_files ([sample_file] ++ []).
Proof.
  refine (proj1 (@other_files_are_skipped meta_file (u "Shop")
                   [sample_file] [] [] _)).
  vm_compute. reflexivity.
Defined.

(** X15: A sub-folder with one of the ignored names is not entered: the
    result is the same as without it, whatever it holds. *)
Theorem ignored_folders_are_pruned
        (d : folder) (dir : str) (files : list source_file)
        (before after : list folder) :
  mem (folder_name d) IGNORE_FOLDERS = true ->
  extract_from_directory (Folder dir files (before ++ d :: after)) =
  extract_from_directory (Folder dir files (before ++ after)).
Proof.
  intros H. cbn [extract_from_directory].
  destruct (extract_from_files files) as [here|e]; [|reflexivity].
  cbn [bind].
  match goal with
  | |- context [bind (?w (before ++ d :: after))] =>
      assert (W : w (before ++ d :: after) = w (before ++ after))
  end.
  { induction before as [|d' before IH]; cbn -[mem IGNORE_FOLDERS].
    - rewrite H. reflexivity.
    - rewrite IH. reflexivity. }
  rewrite W. reflexivity.
Qed.

Lemma ignored_folders_are_pruned_witness :
  extract_from_directory (Folder (u "Shop") [] ([] ++ bind_folder :: [])) =
  extract_from_directory (Folder (u "Shop") [] ([] ++ [])).
Proof.
  apply (@ignored_folders_are_pruned bind_folder (u "Shop") [] [] []).
  vm_compute. reflexivity.
Defined.

(** ** The translation cache *)

Section CacheFacts.
Variable V : Type.

Lemma get_set_same (d : Dict.t V) (k : str) (v : V) :
  Dict.get (Dict.set d k v) k = Some v.
Proof.
  induction d as [|[k' v'] d IH]; cbn [Dict.set Dict.get].
  - rewrite str_eqb_refl. reflexivity.
  - destruct (str_eqb k k') eqn:E; cbn [Dict.get]; rewrite E;
      [reflexivity | exact IH].
Qed.

Lemma get_set_other (d : Dict.t V) (k k' : str) (v : V) :
  k' <> k -> Dict.get (Dict.set d k v) k' = Dict.get d k'.
Proof.
  intros N. induction d as [|[k0 v0] d IH]; cbn [Dict.set Dict.get].
  - apply str_eqb_neq in N. rewrite N. reflexivity.
  - destruct (str_eqb k k0) eqn:E; cbn [Dict.get].
    + apply str_eqb_eq in E. subst k0.
      apply str_eqb_neq in N. rewrite N. reflexivity.
    + destruct (str_eqb k' k0); [reflexivity | exact IH].
Qed.

Lemma keys_set (d : Dict.t V) (k : str) (v : V) :
  map fst (Dict.set d k v) =
  if Dict.has d k then map fst d else map fst d ++ [k].
Proof.
  unfold Dict.has. induction d as [|[k' v'] d IH]; cbn [Dict.set Dict.get].
  - reflexivity.
  - destruct (str_eqb k k') eqn:E; cbn [map fst]; [reflexivity|].
    rewrite IH. destruct (Dict.get d k); reflexivity.
Qed.

(** X16: Storing a key in the cache and asking for it gives the stored
    value; the other keys keep their values; the order of the keys is
    kept, a new key going to the end. *)
Theorem cache_set_then_get (d : Dict.t V) (k : str) (v : V) :
  Dict.get (Dict.set d k v) k = Some v /\
  (forall k', k' <> k -> Dict.get (Dict.set d k v) k' = Dict.get d k') /\
  map fst (Dict.set d k v) =
  (if Dict.has d k then map fst d else map fst d ++ [k]).
Proof.
  split; [apply get_set_same|].
  split; [intros k'; apply get_set_other | apply keys_set].
Qed.

End CacheFacts.

(** ** Keys and translations *)

Lemma nonempty_app_l (a b : str) : nonempty a = true -> nonempty (a ++ b) = true.
Proof. destruct a; [discriminate | reflexivity]. Qed.

Lemma nonempty_app_r (a b : str) : nonempty b = true -> nonempty (a ++ b) = true.
Proof. destruct a; [auto | reflexivity]. Qed.

Lemma join_nonempty (sep w : str) (ws : list str) :
  nonempty w = true -> nonempty (join sep (w :: ws)) = true.
Proof.
  intros H. cbn [join]. destruct ws; [exact H | apply nonempty_app_l, H].
Qed.

Lemma limit_nonempty (module_name result : str) :
  nonempty result = true -> nonempty (limit module_name result) = true.
Proof.
  intros H. unfold limit.
  destruct (0 <? 50 - Z.of_nat (length module_name) - 1)%Z eqn:E;
    [|exact H].
  apply Z.ltb_lt in E.
  destruct (Z.to_nat (50 - Z.of_nat (length module_name) - 1)) eqn:N; [lia|].
  destruct result; [discriminate | reflexivity].
Qed.

Lemma get_In {V : Type} (d : Dict.t V) (k : str) (v : V) :
  Dict.get d k = Some v -> In v (map snd d).
Proof.
  induction d as [|[k' v'] d IH]; cbn [Dict.get]; [discriminate|].
  destruct (str_eqb k k').
  - intros E. inversion E. left; reflexivity.
  - intros E. right. exact (IH E).
Qed.

Lemma local_table_values :
  forallb (fun w => nonempty w && script_free w) (map snd local_word_map)
  = true.
Proof. vm_compute. reflexivity. Qed.

Lemma default_table_values :
  forallb nonempty (map snd default_word_map) = true.
Proof. vm_compute. reflexivity. Qed.

Lemma still_chinese_single (c : char) : still_chinese [c] = is_chinese c.
Proof.
  unfold still_chinese, is_chinese. cbn [str_leb].
  destruct (19968 <? c)%N eqn:A; destruct (c <? 19968)%N eqn:B;
    destruct (c <? 40959)%N eqn:C; destruct (40959 <? c)%N eqn:D;
    destruct (19968 <=? c)%N eqn:E; destruct (c <=? 40959)%N eqn:F;
    try reflexivity;
    rewrite ?N.ltb_lt, ?N.ltb_ge, ?N.leb_le, ?N.leb_gt in *; lia.
Qed.

Lemma lookup_values (word_map : Dict.t str) (P : str -> bool) (c : char) :
  forallb P (map snd word_map) = true ->
  lookup word_map c = [c] \/ P (lookup word_map c) = true.
Proof.
  intros T. unfold lookup.
  destruct (Dict.get word_map [c]) as [t|] eqn:G; [|left; reflexivity].
  right. apply get_In in G.
  exact (proj1 (forallb_forall P (map snd word_map)) T t G).
Qed.

(** The tokens of [_local_translate] come from the table: they are not
    empty and hold no character of the script range. *)
Lemma local_words_tokens (text w : str) :
  In w (local_words text) -> nonempty w = true /\ script_free w = true.
Proof.
  induction text as [|c text IH]; cbn [local_words]; [intros []|].
  destruct (is_chinese c) eqn:C; [|exact IH].
  destruct (still_chinese (lookup local_word_map c)) eqn:S; [exact IH|].
  intros [<- | H]; [|exact (IH H)].
  destruct (lookup_values local_word_map _ c local_table_values) as [E | E].
  - rewrite E, still_chinese_single, C in S. discriminate.
  - apply andb_true_iff in E. exact E.
Qed.

Lemma default_words_tokens (text w : str) :
  In w (default_words text) -> nonempty w = true.
Proof.
  induction text as [|c text IH]; cbn [default_words]; [intros []|].
  destruct (is_chinese c); [|exact IH].
  intros [<- | H]; [|exact (IH H)].
  destruct (lookup_values default_word_map _ c default_table_values)
    as [E | E]; [rewrite E; reflexivity | exact E].
Qed.

Lemma script_free_app (a b : str) :
  script_free (a ++ b) = script_free a && script_free b.
Proof. apply forallb_app. Qed.

Lemma script_free_digits (n : nat) : script_free (str_of_nat n) = true.
Proof.
  apply forallb_forall. intros c H. apply digits_range in H.
  unfold is_chinese. apply negb_true_iff, andb_false_iff. left.
  apply N.leb_gt. lia.
Qed.

Lemma script_free_firstn (n : nat) (s : str) :
  script_free s = true -> script_free (firstn n s) = true.
Proof.
  intros H. rewrite <- (firstn_skipn n s), script_free_app in H.
  apply andb_true_iff in H. apply H.
Qed.

Lemma script_free_limit (module_name result : str) :
  script_free result = true -> script_free (limit module_name result) = true.
Proof.
  intros H. unfold limit.
  destruct (0 <? 50 - Z.of_nat (length module_name) - 1)%Z;
    [apply script_free_firstn, H | exact H].
Qed.

Lemma script_free_join (sep : str) (ws : list str) :
  script_free sep = true ->
  (forall w, In w ws -> script_free w = true) ->
  script_free (join sep ws) = true.
Proof.
  intros S. induction ws as [|w ws IH]; intros H; [reflexivity|].
  cbn [join]. destruct ws as [|w' ws'].
  - apply H. left; reflexivity.
  - rewrite !script_free_app, S, (H w) by (left; reflexivity).
    cbn [andb]. apply IH. intros x K. apply H. right; exact K.
Qed.

Section TranslatorFacts.
Variable upper : str -> str.
Variable isdecimal : char -> bool.
Variable World : Type.
Variable _call_api : World -> str -> str -> outcome (option str) * World.

(** X17: Neither key generation ever returns the empty text. *)
Theorem keys_are_nonempty (text context : str) :
  nonempty (_default_key upper isdecimal text context) = true /\
  nonempty (_local_translate upper isdecimal text context) = true.
Proof.
  assert (P : forall a n, nonempty (a ++ u "_PARAM_" ++ str_of_nat n) = true)
    by (intros; apply nonempty_app_r; reflexivity).
  assert (T : forall a, nonempty (a ++ u "_TEXT") = true)
    by (intros; apply nonempty_app_r; reflexivity).
  split.
  - unfold _default_key.
    destruct (negb (nonempty (strip (sub (index_pattern isdecimal) [] text)))).
    + destruct (nonempty (if nonempty context then upper context else []));
        [apply P | reflexivity].
    + destruct (default_words
                  (strip (sub (index_pattern isdecimal) [] text)))
        as [|w ws] eqn:W.
      * destruct (nonempty (if nonempty context then upper context else []));
          [apply T | reflexivity].
      * assert (N : nonempty w = true).
        { apply (default_words_tokens
                   (strip (sub (index_pattern isdecimal) [] text))).
          rewrite W. left; reflexivity. }
        destruct (nonempty (if nonempty context then upper context else []))
          eqn:M.
        -- apply nonempty_app_l, M.
        -- apply limit_nonempty, join_nonempty, N.
  - unfold _local_translate.
    destruct (negb (nonempty (strip (sub (index_pattern isdecimal) []
                                         text)))).
    + destruct (nonempty context); [apply P | reflexivity].
    + destruct (local_words
                  (strip (sub (index_pattern isdecimal) [] text)))
        as [|w ws] eqn:W.
      * destruct (0 <? length (findall (index_pattern isdecimal) text));
          [apply P | apply T].
      * assert (N : nonempty w = true).
        { apply (local_words_tokens
                   (strip (sub (index_pattern isdecimal) [] text))).
          rewrite W. left; reflexivity. }
        destruct (nonempty (if nonempty context then upper context else []))
          eqn:M.
        -- apply nonempty_app_l, M.
        -- apply limit_nonempty, join_nonempty, N.
Qed.

(** X18: The key of the translator path holds no character of the script
    range when the upper-cased scope name holds none. *)
Theorem local_translate_is_script_free (text context : str) :
  script_free (upper context) = true ->
  script_free (_local_translate upper isdecimal text context) = true.
Proof.
  intros U.
  assert (P : forall n, script_free
                          (upper context ++ u "_PARAM_" ++ str_of_nat n)
                        = true).
  { intros n. rewrite !script_free_app, U, script_free_digits. reflexivity. }
  assert (T : script_free (upper context ++ u "_TEXT") = true).
  { rewrite script_free_app, U. reflexivity. }
  unfold _local_translate.
  destruct (negb (nonempty (strip (sub (index_pattern isdecimal) [] text)))).
  - destruct (nonempty context); [apply P|].
    rewrite script_free_app, script_free_digits. reflexivity.
  - destruct (local_words (strip (sub (index_pattern isdecimal) [] text)))
      as [|w ws] eqn:W.
    + destruct (0 <? length (findall (index_pattern isdecimal) text));
        [apply P | exact T].
    + assert (J : forall m,
                 script_free (limit m (join (u "_") (w :: ws))) = true).
      { intros m. apply script_free_limit, script_free_join; [reflexivity|].
        intros x K. rewrite <- W in K.
        apply local_words_tokens in K. apply K. }
      destruct (nonempty context).
      * destruct (nonempty (upper context)); [|apply J].
        rewrite !script_free_app, U, J. reflexivity.
      * apply J.
Qed.



Lemma row_for_prefix (tr : option (translator World)) (context value : str) :
  nonempty context = true ->
  startswith (fst (row_for upper isdecimal _call_api tr context value))
             (upper context ++ u "_") = true.
Proof.
  intros C. unfold row_for.
  destruct (match tr with
            | Some t =>
                let (k, t') := translate upper isdecimal _call_api t value context in (k, Some t')
            | None => (_default_key upper isdecimal value context, None)
            end) as [key tr'].
  rewrite C. cbn [fst].
  destruct (startswith key (upper context ++ u "_")) eqn:S; cbn [negb].
  - exact S.
  - apply startswith_self_app.
Qed.

Lemma make_rows_prefix (context : str) (items : list (str * ChineseString)) :
  nonempty context = true ->
  forall tr,
    Forall (fun r => startswith (row_key r) (upper context ++ u "_") = true)
           (fst (make_rows upper isdecimal _call_api tr context items)).
Proof.
  intros C. induction items as [|[v cs] rest IH]; intros tr;
    cbn [make_rows]; [constructor|].
  pose proof (row_for_prefix tr context v C) as P.
  destruct (row_for upper isdecimal _call_api tr context v) as [key tr1].
  specialize (IH tr1).
  destruct (make_rows upper isdecimal _call_api tr1 context rest)
    as [rows tr2].
  cbn [fst] in *. constructor; [exact P | exact IH].
Qed.

(** X20: For a named scope every key of the table begins with the
    upper-cased scope name and an underscore, whatever the translator,
    its cache and the service return. *)
Theorem generate_keys_are_prefixed
        (tr : option (translator World)) (strings : list ChineseString)
        (context : str) :
  nonempty context = true ->
  match fst (generate upper isdecimal _call_api tr strings context) with
  | Some rows =>
      Forall (fun r => startswith (row_key r) (upper context ++ u "_") = true)
             rows
  | None => strings = []
  end.
Proof.
  intros C. unfold generate. destruct strings as [|s0 rest]; [reflexivity|].
  pose proof (@make_rows_prefix context (Dict.items (unique (s0 :: rest)))
                C tr) as P.
  destruct (make_rows upper isdecimal _call_api tr context
                      (Dict.items (unique (s0 :: rest)))) as [rows tr'].
  exact P.
Qed.

End TranslatorFacts.

Lemma local_translate_is_script_free_witness :
  script_free (_local_translate ascii_upper ascii_digit
                                (u "你好抽卡") (u "Battle")) = true.
Proof.
  apply (@local_translate_is_script_free ascii_upper ascii_digit
           (u "你好抽卡") (u "Battle")).
  vm_compute. reflexivity.
Defined.

Lemma generate_keys_are_prefixed_witness :
  match fst (generate ascii_upper ascii_digit (fixed_service (u "draw_card"))
                      (Some empty_translator) [sample_record] (u "Shop")) with
  | Some rows =>
      Forall (fun r => startswith (row_key r)
                                  (ascii_upper (u "Shop") ++ u "_") = true)
             rows
  | None => [sample_record] = []
  end.
Proof.
  apply (@generate_keys_are_prefixed ascii_upper ascii_digit unit
           (fixed_service (u "draw_card")) (Some empty_translator)
           [sample_record] (u "Shop")).
  reflexivity.
Defined.

(** ** Entries of the table that are never used *)

Lemma get_single {V : Type} (d : Dict.t V) (c : char) :
  Dict.get d [c] =
  Dict.get (filter (fun kv => length (fst kv) =? 1) d) [c].
Proof.
  induction d as [|[k v] d IH]; [reflexivity|].
  cbn [Dict.get filter fst].
  destruct (length k =? 1) eqn:L.
  - cbn [Dict.get]. destruct (str_eqb [c] k); [reflexivity | exact IH].
  - assert (E : str_eqb [c] k = false).
    { apply str_eqb_neq. intros <-. discriminate L. }
    rewrite E. exact IH.
Qed.

(** X21: [_default_key] looks the characters up one by one: the entries of
    its table whose key has two characters, such as the one for 探索,
    play no part in any key. *)
Theorem default_words_use_single_entries (text : str) :
  default_words text =
  map (lookup (single_entries default_word_map)) (filter is_chinese text).
Proof.
  rewrite default_words_map. apply map_ext. intros c.
  unfold lookup, single_entries. rewrite <- get_single. reflexivity.
Qed.

(** ** Removing the comment of a line *)

Lemma last_is_snoc (r : str) (x c : char) :
  last_is (r ++ [x]) c = char_eqb x c.
Proof. unfold last_is. rewrite rev_app_distr. reflexivity. Qed.

Lemma last_is_app (a b : str) (c : char) :
  b <> [] -> last_is (a ++ b) c = last_is b c.
Proof.
  intros N. unfold last_is. rewrite rev_app_distr.
  destruct (rev b) eqn:E; [|reflexivity].
  apply (f_equal (@rev char)) in E. rewrite rev_involutive in E.
  contradiction.
Qed.

Lemma contains_tail (p : str) (c : char) (s : str) :
  contains p (c :: s) = false -> contains p s = false.
Proof. cbn [contains]. intros H. apply orb_false_iff in H. apply H. Qed.

Lemma startswith_app_l (s p b : str) :
  startswith s p = true -> startswith (s ++ b) p = true.
Proof.
  revert s. induction p as [|y p IH]; intros s H.
  - destruct (s ++ b); reflexivity.
  - destruct s as [|x s]; [discriminate|]. cbn [app startswith] in *.
    apply andb_true_iff in H. destruct H as [-> H]. apply IH, H.
Qed.

Lemma contains_app_false (p a b : str) :
  contains p (a ++ b) = false -> contains p a = false.
Proof.
  intros H. destruct (contains p a) eqn:E; [|reflexivity].
  apply contains_iff in E. destruct E as [pre [s' [-> S]]].
  assert (K : contains p ((pre ++ s') ++ b) = true).
  { apply contains_iff. exists pre, (s' ++ b).
    split; [symmetry; apply app_assoc | apply startswith_app_l, S]. }
  rewrite K in H. discriminate.
Qed.

(** Outside a string, a stretch without quote and without two slashes
    in a row is copied. *)
Lemma remove_comment_code (code : str) :
  forall result rest,
    ~ In dquote code -> ~ In squote code ->
    contains [slash; slash] code = false ->
    (last_is result slash = true -> forall t, code <> slash :: t) ->
    remove_comment_loop (code ++ rest) result false None =
    remove_comment_loop rest (result ++ code) false None.
Proof.
  induction code as [|c code IH]; intros result rest D Q C B.
  - rewrite app_nil_r. reflexivity.
  - cbn [app remove_comment_loop].
    assert (E1 : char_eqb c dquote = false).
    { unfold char_eqb. apply N.eqb_neq. intros ->. apply D. left; reflexivity. }
    assert (E2 : char_eqb c squote = false).
    { unfold char_eqb. apply N.eqb_neq. intros ->. apply Q. left; reflexivity. }
    rewrite E1, E2. cbn [negb andb orb].
    assert (E3 : char_eqb c slash && last_is result slash = false).
    { destruct (char_eqb c slash) eqn:S; [|reflexivity].
      destruct (last_is result slash) eqn:L; [|reflexivity].
      apply char_eqb_eq in S. subst c. exfalso.
      exact (B eq_refl code eq_refl). }
    rewrite E3.
    replace (result ++ c :: code) with ((result ++ [c]) ++ code)
      by (rewrite <- app_assoc; reflexivity).
    apply IH.
    + intros K. apply D. right; exact K.
    + intros K. apply Q. right; exact K.
    + exact (contains_tail _ _ _ C).
    + rewrite last_is_snoc. intros S t ->. apply char_eqb_eq in S. subst c.
      cbn [contains startswith] in C. unfold char_eqb in C.
      rewrite N.eqb_refl in C. destruct t; discriminate C.
Qed.

(** Inside a double-quoted string everything up to the next double
    quote is copied, slashes included. *)
Lemma remove_comment_string (text : str) :
  forall result rest,
    ~ In dquote text ->
    remove_comment_loop (text ++ rest) result true (Some dquote) =
    remove_comment_loop rest (result ++ text) true (Some dquote).
Proof.
  induction text as [|c text IH]; intros result rest D.
  - rewrite app_nil_r. reflexivity.
  - cbn [app remove_comment_loop negb andb].
    assert (E : char_eqb c dquote = false).
    { unfold char_eqb. apply N.eqb_neq. intros ->. apply D. left; reflexivity. }
    rewrite E.
    replace (result ++ c :: text) with ((result ++ [c]) ++ text)
      by (rewrite <- app_assoc; reflexivity).
    apply IH. intros K. apply D. right; exact K.
Qed.

(** X22: On a line without quotes the text from the second slash of the
    first [//] on is cut off: the first slash stays.  Without [//] the
    line is returned as it is, also when it ends in a single slash. *)
Theorem remove_comment_cuts_after_first_slash (code comment : str) :
  ~ In dquote code -> ~ In squote code ->
  (contains [slash; slash] code = false -> _remove_comment code = code) /\
  (contains [slash; slash] (code ++ [slash]) = false ->
   _remove_comment (code ++ slash :: slash :: comment) = code ++ [slash]).
Proof.
  intros D Q. unfold _remove_comment. split.
  - intros C.
    assert (B : last_is [] slash = true -> forall t, code <> slash :: t)
      by (intros K; discriminate K).
    pose proof (@remove_comment_code code [] [] D Q C B) as H.
    rewrite app_nil_r in H. exact H.
  - intros C.
    assert (D' : ~ In dquote (code ++ [slash])).
    { intros K. apply in_app_or in K. destruct K as [K | [K | []]];
        [contradiction | discriminate K]. }
    assert (Q' : ~ In squote (code ++ [slash])).
    { intros K. apply in_app_or in K. destruct K as [K | [K | []]];
        [contradiction | discriminate K]. }
    assert (B : last_is [] slash = true ->
                forall t, code ++ [slash] <> slash :: t)
      by (intros K; discriminate K).
    replace (code ++ slash :: slash :: comment)
      with ((code ++ [slash]) ++ slash :: comment)
      by (rewrite <- app_assoc; reflexivity).
    rewrite (@remove_comment_code (code ++ [slash]) [] (slash :: comment)
               D' Q' C B).
    cbn [app remove_comment_loop negb andb orb].
    rewrite last_is_snoc. reflexivity.
Qed.

Lemma remove_comment_cuts_after_first_slash_witness :
  _remove_comment (u "a = b /") = u "a = b /" /\
  _remove_comment (u "int a = b / c; " ++ slash :: slash :: u " 注释")
  = u "int a = b / c; " ++ [slash].
Proof.
  split.
  - refine (proj1 (@remove_comment_cuts_after_first_slash
                     (u "a = b /") [] _ _) _);
      vm_compute; try reflexivity; intuition discriminate.
  - refine (proj2 (@remove_comment_cuts_after_first_slash
                     (u "int a = b / c; ") (u " 注释") _ _) _);
      vm_compute; try reflexivity; intuition discriminate.
Defined.

(** X23: Two slashes inside a double-quoted literal are no comment: the
    literal is kept whole and the comment after it is cut, its first
    slash staying. *)
Theorem remove_comment_keeps_strings (code text between comment : str) :
  ~ In dquote code -> ~ In squote code ->
  contains [slash; slash] code = false ->
  ~ In dquote text -> last_is (dquote :: text) backslash = false ->
  ~ In dquote between -> ~ In squote between ->
  contains [slash; slash] (between ++ [slash]) = false ->
  _remove_comment
    (code ++ quoted text ++ between ++ slash :: slash :: comment)
  = code ++ quoted text ++ between ++ [slash].
Proof.
  intros D Q C T L D2 Q2 C2. unfold _remove_comment.
  rewrite remove_comment_code; [|assumption..|intros K; discriminate K].
  rewrite quoted_app. cbn [app remove_comment_loop negb andb orb].
  unfold char_eqb at 1. rewrite N.eqb_refl. cbn [orb].
  rewrite remove_comment_string by exact T.
  cbn [remove_comment_loop negb andb].
  unfold char_eqb at 1. rewrite N.eqb_refl.
  rewrite <- app_assoc.
  rewrite (@last_is_app code ([dquote] ++ text) backslash) by discriminate.
  cbn [app]. rewrite L.
  replace (between ++ slash :: slash :: comment)
    with ((between ++ [slash]) ++ slash :: comment)
    by (rewrite <- app_assoc; reflexivity).
  rewrite remove_comment_code.
  - cbn [remove_comment_loop negb andb orb].
    change (char_eqb slash dquote || char_eqb slash squote) with false.
    change (char_eqb slash slash) with true.
    rewrite (app_assoc _ between [slash]), last_is_snoc.
    change (char_eqb slash slash) with true. cbn [andb].
    unfold quoted. cbn [app]. repeat rewrite <- app_assoc. cbn [app].
    reflexivity.
  - intros K. apply in_app_or in K. destruct K as [K | [K | []]];
      [contradiction | discriminate K].
  - intros K. apply in_app_or in K. destruct K as [K | [K | []]];
      [contradiction | discriminate K].
  - exact C2.
  - rewrite last_is_snoc. intros K. discriminate K.
Qed.

Lemma remove_comment_keeps_strings_witness :
  _remove_comment
    (u "url = " ++ quoted (u "http://a.b/c") ++ u "; "
       ++ slash :: slash :: u " 地址")
  = u "url = " ++ quoted (u "http://a.b/c") ++ u "; " ++ [slash].
Proof.
  apply (@remove_comment_keeps_strings (u "url = ") (u "http://a.b/c")
           (u "; ") (u " 地址"));
    vm_compute; try reflexivity; intuition discriminate.
Defined.

(** ** Normal forms *)

Lemma str_of_nat_nonempty (n : nat) : str_of_nat n <> [].
Proof.
  unfold str_of_nat.
  assert (N : Nat.to_uint n <> Nil).
  { intros E. pose proof (DecimalNat.Unsigned.to_of (Nat.to_uint n)) as H.
    rewrite DecimalNat.Unsigned.of_to, E in H.
    exact (DecimalFacts.unorm_nonnil Nil (eq_sym H)). }
  destruct (Nat.to_uint n); [contradiction|..]; discriminate.
Qed.

Lemma match_placeholder (i : nat) (rest : str) :
  match_at param_pattern (placeholder i ++ rest) = Some (rest, []).
Proof.
  unfold placeholder. cbn [app]. rewrite <- app_assoc. cbn [app].
  apply match_param_some; [apply str_of_nat_nonempty|].
  intros H. apply digits_range in H. unfold rbrace in H. lia.
Qed.

Lemma match_param_other (c : char) (s : str) :
  c <> lbrace -> match_at param_pattern (c :: s) = None.
Proof.
  intros N. unfold match_at, param_pattern. cbn [run].
  unfold char_eqb. apply N.eqb_neq in N. rewrite N. reflexivity.
Qed.

Lemma findall_placeholder (i : nat) (rest : str) :
  findall param_pattern (placeholder i ++ rest) =
  placeholder i :: findall param_pattern rest.
Proof.
  rewrite (findall_match _ _ (match_placeholder i rest)).
  - unfold reported. rewrite firstn_consumed. reflexivity.
  - rewrite length_app. unfold placeholder. simpl. lia.
Qed.

Lemma findall_renumber (n : nat) :
  forall s i,
    length s <= n ->
    findall param_pattern (renumber_from (S (length s)) i s) =
    map placeholder (seq i (length (findall param_pattern s))).
Proof.
  induction n as [|n IH]; intros s i L.
  - destruct s; [reflexivity | simpl in L; lia].
  - destruct s as [|c s']; [reflexivity|].
    rewrite renumber_from_S.
    destruct (match_at param_pattern (c :: s')) as [[rest caps]|] eqn:E.
    + pose proof (@match_param_shorter _ _ _ E) as Sh.
      rewrite (@findall_match _ _ _ _ E Sh). cbn [length seq map].
      rewrite findall_placeholder. f_equal.
      rewrite (@renumber_from_fuel (length (c :: s')) (S (length rest)))
        by lia.
      apply IH. simpl in *. lia.
    + rewrite (@findall_skip _ _ _ E).
      destruct (N.eq_dec c lbrace) as [-> | N].
      * destruct (@match_param_none _ E) as [[s'' ->] | K].
        -- assert (E2 : match_at param_pattern (rbrace :: s'') = None)
             by reflexivity.
           rewrite (@findall_skip _ _ _ E2).
           cbn [length]. rewrite renumber_from_S, E2.
           assert (E3 : forall t, match_at param_pattern
                                    (lbrace :: rbrace :: t) = None)
             by reflexivity.
           assert (E4 : forall t, match_at param_pattern (rbrace :: t) = None)
             by reflexivity.
           rewrite (@findall_skip _ _ _ (E3 _)), (@findall_skip _ _ _ (E4 _)).
           apply IH. simpl in L. lia.
        -- assert (S : search param_pattern (lbrace :: s') = false).
           { apply no_rbrace_no_param. intros [Q | Q];
               [discriminate Q | contradiction]. }
           pose proof S as S'. apply search_false_tail in S'.
           destruct S' as [_ S'].
           rewrite (@renumber_from_none _ i _ S').
           unfold findall at 2. rewrite (@findall_from_none _ _ _ S').
           unfold findall. rewrite (@findall_from_none _ _ _ S). reflexivity.
      * rewrite (@findall_skip _ _ _ (match_param_other _ N)).
        rewrite (@renumber_from_fuel (length (c :: s')) (S (length s')))
          by (simpl; lia).
        apply IH. simpl in L. lia.
Qed.

(** X24: On the texts of which no placeholder span is one of the indices
    written before its turn, the normal form has its spans numbered
    [{0}], [{1}], ... in order and normalising it again changes
    nothing: there the normalisation is idempotent. *)
Theorem format_string_idempotent_when_fresh (text : str) :
  fresh 0 (findall param_pattern text) ->
  findall param_pattern (_format_string text) =
  map placeholder (seq 0 (length (findall param_pattern text))) /\
  _format_string (_format_string text) = _format_string text.
Proof.
  intros H.
  assert (E : findall param_pattern (_format_string text) =
              map placeholder (seq 0 (length (findall param_pattern text)))).
  { rewrite (format_string_renumber text H). unfold renumber.
    apply (findall_renumber (n := length text)). lia. }
  split; [exact E|].
  exact (@format_string_canonical _ _ E).
Qed.

Lemma format_string_idempotent_when_fresh_witness :
  _format_string (_format_string (u "{name}造成{dmg}点伤害"))
  = _format_string (u "{name}造成{dmg}点伤害").
Proof.
  refine (proj2 (@format_string_idempotent_when_fresh
                   (u "{name}造成{dmg}点伤害") _)).
  assert (E : findall param_pattern (u "{name}造成{dmg}点伤害")
              = [u "{name}"; u "{dmg}"]) by (vm_compute; reflexivity).
  rewrite E. cbn [fresh].
  split; [intros j Hj; lia|]. split; [|exact I].
  intros j Hj. assert (J : j = 0) by lia. subst j.
  vm_compute. discriminate.
Defined.

(** ** Lines outside block comments *)

(** X25: In a stretch of lines none of which contains [/*] or [*/], read
    outside a block comment, every line is processed on its own: the
    records are those of the single lines, in the order of the lines,
    and the stretch ends outside a comment. *)
Theorem lines_are_independent (name : str) (lines : list str) :
  forall i,
    Forall (fun l => contains (u "/*") l = false /\
                     contains (u "*/") l = false) lines ->
    scan_lines name false i lines =
    flat_map (fun p => snd (scan_line name false (fst p) (snd p)))
             (combine (seq i (length lines)) lines) /\
    forall after,
      scan_lines name false i (lines ++ after) =
      scan_lines name false i lines ++
      scan_lines name false (i + length lines) after.
Proof.
  induction lines as [|l lines IH]; intros i F.
  - split; [reflexivity|]. intros after. cbn [app length scan_lines].
    rewrite Nat.add_0_r. reflexivity.
  - inversion F as [|x xs [O C] F']; subst.
    destruct (IH (S i) F') as [A B].
    assert (E : fst (scan_line name false i l) = false).
    { unfold scan_line. rewrite O, C.
      destruct (_is_attribute_line l); reflexivity. }
    cbn [scan_lines length seq combine flat_map fst snd app].
    destruct (scan_line name false i l) as [st found]. cbn [fst snd] in *.
    subst st. split.
    + rewrite A. reflexivity.
    + intros after. rewrite B, <- app_assoc, <- Nat.add_succ_comm.
      reflexivity.
Qed.

Lemma lines_are_independent_witness :
  scan_lines (u "a.cs") false 1
    [u "a = " ++ quoted (u "开始"); u "b = " ++ quoted (u "结束")] =
  flat_map (fun p => snd (scan_line (u "a.cs") false (fst p) (snd p)))
    (combine (seq 1 2)
       [u "a = " ++ quoted (u "开始"); u "b = " ++ quoted (u "结束")]).
Proof.
  refine (proj1 (@lines_are_independent (u "a.cs")
                   [u "a = " ++ quoted (u "开始");
                    u "b = " ++ quoted (u "结束")] 1 _)).
  repeat constructor; vm_compute; reflexivity.
Defined.

(** ** The length of the keys *)

Lemma limit_off (module_name result : str) :
  49 <= length module_name -> limit module_name result = result.
Proof.
  intros H. unfold limit.
  assert (E : (0 <? 50 - Z.of_nat (length module_name) - 1)%Z = false)
    by (apply Z.ltb_ge; lia).
  rewrite E. reflexivity.
Qed.

(** The last step of both key generations, for a module name and the
    joined tokens. *)
Lemma assembled_short (module_name result : str) :
  length module_name < 49 ->
  length (if nonempty module_name
          then module_name ++ u "_" ++ limit module_name result
          else limit module_name result) <= 50.
Proof.
  intros L. pose proof (limit_length module_name result L).
  destruct (nonempty module_name);
    rewrite ?length_app; change (length (u "_")) with 1; lia.
Qed.

Lemma assembled_long (module_name result : str) :
  49 <= length module_name -> nonempty result = true ->
  (if nonempty module_name
   then module_name ++ u "_" ++ limit module_name result
   else limit module_name result) = module_name ++ u "_" ++ result /\
  50 < length (if nonempty module_name
               then module_name ++ u "_" ++ limit module_name result
               else limit module_name result).
Proof.
  intros L N. rewrite limit_off by exact L.
  destruct module_name as [|c m]; [simpl in L; lia|]. cbn [nonempty].
  split; [reflexivity|].
  rewrite !length_app. change (length (u "_")) with 1.
  destruct result; [discriminate|]. simpl in *. lia.
Qed.

Section KeyLength.
Variable upper : str -> str.
Variable isdecimal : char -> bool.
Variable World : Type.
Variable _call_api : World -> str -> str -> outcome (option str) * World.

(** C8, as the code has it, with the module name (the upper-cased scope
    name, empty for an empty scope), for [_default_key] and for
    [_local_translate]: when a token is emitted and the module name has
    fewer than 49 characters, the key has at most 50; from 49 characters
    on nothing is truncated, the key is the module name, an underscore
    and all the joined tokens, and has more than 50; when no token is
    emitted the key is a fallback, which is never truncated, so that
    the fallback [_TEXT] of [_default_key] has at most 50 characters
    exactly when the module name has at most 45.  Without translator
    the key of the row is the key of [_default_key]. *)
Theorem C8_key_length (text context : str) :
  let module_name := if nonempty context then upper context else [] in
  let clean_text := strip (sub (index_pattern isdecimal) [] text) in
  let param_count := length (findall (index_pattern isdecimal) text) in
  let key := _default_key upper isdecimal text context in
  let local_key := _local_translate upper isdecimal text context in
  (default_words clean_text <> [] -> length module_name < 49 ->
   length key <= 50) /\
  (default_words clean_text <> [] -> 49 <= length module_name ->
   key = module_name ++ u "_" ++ join (u "_") (default_words clean_text) /\
   50 < length key) /\
  (default_words clean_text = [] ->
   key = scope_prefix module_name ++
         (if nonempty clean_text then u "TEXT"
          else u "PARAM_" ++ str_of_nat param_count) /\
   (nonempty clean_text = true ->
    (length key <= 50 <-> length module_name <= 45))) /\
  (local_words clean_text <> [] -> length module_name < 49 ->
   length local_key <= 50) /\
  (local_words clean_text <> [] -> 49 <= length module_name ->
   local_key =
   module_name ++ u "_" ++ join (u "_") (local_words clean_text) /\
   50 < length local_key) /\
  (local_words clean_text = [] ->
   local_key =
   if nonempty clean_text then
     upper context ++
     (if 0 <? param_count then u "_PARAM_" ++ str_of_nat param_count
      else u "_TEXT")
   else if nonempty context then
     upper context ++ u "_PARAM_" ++ str_of_nat param_count
   else u "PARAM_" ++ str_of_nat param_count) /\
  ((nonempty context = true -> nonempty (upper context) = true) ->
   fst (row_for upper isdecimal _call_api None context text) = key).
Proof.
  cbv zeta.
  set (module_name := if nonempty context then upper context else []).
  set (clean_text := strip (sub (index_pattern isdecimal) [] text)).
  set (param_count := length (findall (index_pattern isdecimal) text)).
  assert (DK : _default_key upper isdecimal text context =
               if negb (nonempty clean_text) then
                 if nonempty module_name then
                   module_name ++ u "_PARAM_" ++ str_of_nat param_count
                 else u "PARAM_" ++ str_of_nat param_count
               else
                 match default_words clean_text with
                 | [] => if nonempty module_name then module_name ++ u "_TEXT"
                         else u "TEXT"
                 | _ :: _ =>
                     if nonempty module_name then
                       module_name ++ u "_" ++
                       limit module_name
                             (join (u "_") (default_words clean_text))
                     else limit module_name
                                (join (u "_") (default_words clean_text))
                 end).
  { unfold _default_key. fold module_name clean_text param_count.
    destruct (default_words clean_text); reflexivity. }
  assert (LK : _local_translate upper isdecimal text context =
               if negb (nonempty clean_text) then
                 if nonempty context then
                   upper context ++ u "_PARAM_" ++ str_of_nat param_count
                 else u "PARAM_" ++ str_of_nat param_count
               else
                 match local_words clean_text with
                 | [] => if 0 <? param_count then
                           upper context ++ u "_PARAM_"
                                 ++ str_of_nat param_count
                         else upper context ++ u "_TEXT"
                 | _ :: _ =>
                     if nonempty module_name then
                       module_name ++ u "_" ++
                       limit module_name
                             (join (u "_") (local_words clean_text))
                     else limit module_name
                                (join (u "_") (local_words clean_text))
                 end).
  { unfold _local_translate. fold module_name clean_text param_count.
    destruct (local_words clean_text); reflexivity. }
  assert (DN : default_words clean_text <> [] ->
               nonempty clean_text = true /\
               nonempty (join (u "_") (default_words clean_text)) = true).
  { intros W. split; [destruct clean_text; [contradiction W|]; reflexivity|].
    destruct (default_words clean_text) as [|w ws] eqn:E;
      [contradiction W; reflexivity|].
    apply join_nonempty, (default_words_tokens clean_text).
    rewrite E. left; reflexivity. }
  assert (LN : local_words clean_text <> [] ->
               nonempty clean_text = true /\
               nonempty (join (u "_") (local_words clean_text)) = true).
  { intros W. split; [destruct clean_text; [contradiction W|]; reflexivity|].
    destruct (local_words clean_text) as [|w ws] eqn:E;
      [contradiction W; reflexivity|].
    apply join_nonempty, (local_words_tokens clean_text).
    rewrite E. left; reflexivity. }
  repeat apply conj.
  - intros W L. destruct (DN W) as [C _].
    rewrite DK, C. cbn [negb].
    destruct (default_words clean_text) eqn:E;
      [exfalso; apply W; first [exact E | reflexivity]|].
    apply assembled_short, L.
  - intros W L. destruct (DN W) as [C J].
    rewrite DK, C. cbn [negb]. revert J.
    destruct (default_words clean_text) eqn:E;
      [exfalso; apply W; first [exact E | reflexivity]|].
    intros J. apply assembled_long; assumption.
  - intros W. rewrite DK, W. unfold scope_prefix.
    split.
    + destruct (nonempty clean_text); cbn [negb];
        destruct (nonempty module_name); cbn [app];
        rewrite <- ?app_assoc; reflexivity.
    + intros C. rewrite C. cbn [negb].
      destruct module_name as [|c m]; cbn [nonempty].
      * simpl. split; intros; lia.
      * rewrite length_app. change (length (u "_TEXT")) with 5.
        cbn [length]. lia.
  - intros W L. destruct (LN W) as [C _].
    rewrite LK, C. cbn [negb].
    destruct (local_words clean_text) eqn:E;
      [exfalso; apply W; first [exact E | reflexivity]|].
    apply assembled_short, L.
  - intros W L. destruct (LN W) as [C J].
    rewrite LK, C. cbn [negb]. revert J.
    destruct (local_words clean_text) eqn:E;
      [exfalso; apply W; first [exact E | reflexivity]|].
    intros J. apply assembled_long; assumption.
  - intros W. rewrite LK, W.
    destruct (nonempty clean_text); cbn [negb];
      destruct (0 <? param_count); reflexivity.
  - apply row_for_default.
Qed.

End KeyLength.

Lemma C8_key_length_witness :
  length (_default_key ascii_upper ascii_digit long_text (u "Battle")) <= 50 /\
  length (_local_translate ascii_upper ascii_digit long_text (u "Battle"))
  <= 50 /\
  50 < length (_default_key ascii_upper ascii_digit (u "你好") long_scope) /\
  50 < length (_local_translate ascii_upper ascii_digit (u "抽卡")
                                long_scope) /\
  _default_key ascii_upper ascii_digit (u "{0}abc") scope46
  = ascii_upper scope46 ++ u "_TEXT" /\
  ~ length (_default_key ascii_upper ascii_digit (u "{0}abc") scope46) <= 50 /\
  _local_translate ascii_upper ascii_digit (u "{0}abc") scope46
  = ascii_upper scope46 ++ u "_PARAM_1" /\
  fst (row_for ascii_upper ascii_digit no_service None (u "Battle") long_text)
  = _default_key ascii_upper ascii_digit long_text (u "Battle").
Proof.
  assert (S : length (ascii_upper (u "Battle")) < 49) by (vm_compute; lia).
  assert (B : 49 <= length (ascii_upper long_scope)) by (vm_compute; lia).
  destruct (C8_key_length ascii_upper ascii_digit no_service
                          long_text (u "Battle"))
    as [A1 [_ [_ [A4 [_ [_ A7]]]]]].
  destruct (C8_key_length ascii_upper ascii_digit no_service
                          (u "你好") long_scope) as [_ [B2 _]].
  destruct (C8_key_length ascii_upper ascii_digit no_service
                          (u "抽卡") long_scope) as [_ [_ [_ [_ [B5 _]]]]].
  destruct (C8_key_length ascii_upper ascii_digit no_service
                          (u "{0}abc") scope46) as [_ [_ [C3 [_ [_ [C6 _]]]]]].
  cbv zeta in *.
  assert (D : default_words
                (strip (sub (index_pattern ascii_digit) [] (u "{0}abc")))
              = []) by (vm_compute; reflexivity).
  assert (L : local_words
                (strip (sub (index_pattern ascii_digit) [] (u "{0}abc")))
              = []) by (vm_compute; reflexivity).
  assert (N : nonempty
                (strip (sub (index_pattern ascii_digit) [] (u "{0}abc")))
              = true) by (vm_compute; reflexivity).
  destruct (C3 D) as [K I].
  split; [apply A1; [vm_compute; discriminate | exact S]|].
  split; [apply A4; [vm_compute; discriminate | exact S]|].
  split; [apply B2; [vm_compute; discriminate | exact B]|].
  split; [apply B5; [vm_compute; discriminate | exact B]|].
  split; [etransitivity; [exact K | vm_compute; reflexivity]|].
  split.
  { assert (M : ~ length (if nonempty scope46 then ascii_upper scope46
                          else []) <= 45) by (vm_compute; lia).
    intros H. exact (M (proj1 (I N) H)). }
  split; [rewrite (C6 L); vm_compute; reflexivity|].
  apply A7. reflexivity.
Defined.

(** Within the scope names for which tokens are truncated, a fallback
    key can still exceed the ceiling: a scope name of 46 characters
    gives a [_TEXT] key of 51 characters. *)
Lemma fallback_key_exceeds_limit :
  length scope46 = 46 /\
  _default_key ascii_upper ascii_digit (u "{0}abc") scope46
  = ascii_upper scope46 ++ u "_TEXT" /\
  length (_default_key ascii_upper ascii_digit (u "{0}abc") scope46) = 51.
Proof. vm_compute. repeat split; reflexivity. Qed.
